(** * FunctionApproxToolkit: Taylor and Pade approximation engines

    A shallow embedding of [approximations.py].  The two classes of the
    module, [TaylorApproximation] and [PadeApproximation], are embedded as
    records with explicit state passing: a method that mutates [self]
    becomes a function returning the updated record.

    The module relies on three libraries.  The operations it calls are
    modelled here on the fragment the program exercises:
    - [sympy]: expression trees with automatic evaluation, [diff], [subs],
      [factorial], [series], [lambdify];
    - [numpy]: scalars and one-dimensional arrays with broadcasting,
      [poly1d];
    - [scipy]: [linalg.solve] and [interpolate.pade].

    Two number systems are used.  In [scipy] and [PadeApproximation]
    numbers are exact rationals ([Qc], canonical fractions with Leibniz
    equality) and the arithmetic is exact: this is the computation the
    program approximates, free of rounding, overflow and NaN.  In
    [binary64] the statements of the Pade engine run on binary64 numbers;
    what depends on rounding is stated there. *)

From Stdlib Require Import List ZArith QArith Qcanon Qabs Lia Bool Arith.
From Stdlib Require Import Reals Qreals Lra.
From Stdlib Require Floats.
Import ListNotations.

Local Open Scope Qc_scope.

(** ** Rational helpers *)

Definition Qc_of_Z (z : Z) : Qc := Q2Qc (inject_Z z).
Definition Qc_of_nat (n : nat) : Qc := Qc_of_Z (Z.of_nat n).

Definition Qc_eqb (p q : Qc) : bool := Qeq_bool p q.
Definition is_zero (q : Qc) : bool := Qc_eqb q 0.
Definition is_one (q : Qc) : bool := Qc_eqb q 1.

(** Python's [range(stop)] and [enumerate]. *)
Definition range (stop : Z) : list nat := seq 0 (Z.to_nat stop).

Definition enumerate {A : Type} (l : list A) : list (nat * A) :=
  combine (seq 0 (length l)) l.

(** ** sympy: symbolic expressions *)

Module sympy.

(** Expression trees over the single symbol [x = symbols('x')]. *)
Inductive Expr : Type :=
| Num (q : Qc)                 (* Integer / Rational *)
| X                            (* the symbol x *)
| Add (a b : Expr)
| Mul (a b : Expr)
| Pow (a : Expr) (n : nat)     (* integer power *)
| Sin (a : Expr)
| Cos (a : Expr)
| Exp (a : Expr).

(** *** Automatic evaluation

    sympy evaluates an expression when it is built: numbers are folded,
    neutral and absorbing elements disappear, [e**0] is [1], [e**1] is
    [e], and [sin(0)], [cos(0)], [exp(0)] are numbers.  The constructors
    below are the operators [+], [*], [**] and the function calls of the
    Python code.

    Like terms are not collected.  sympy's [Add] also merges the terms of
    a sum that differ by a numeric factor, so that
    [2*sin(x)*cos(x) - 2*sin(x)*cos(x)] is [0]; here such a sum stays a
    tree, whose value is [0].  The constructors agree with sympy on the
    sums in which no two terms are proportional. *)

(** [c * e] for a number [c] and an expression [e] that is not a number. *)
Definition scale (c : Qc) (e : Expr) : Expr :=
  if is_zero c then Num 0
  else if is_one c then e
  else match e with
       | Mul (Num d) e' =>
           if is_one (c * d) then e' else Mul (Num (c * d)) e'
       | _ => Mul (Num c) e
       end.

Definition mul (a b : Expr) : Expr :=
  match a, b with
  | Num p, Num q => Num (p * q)
  | Num p, _ => scale p b
  | _, Num q => scale q a
  | _, _ => Mul a b
  end.

Definition add (a b : Expr) : Expr :=
  match a, b with
  | Num p, Num q => Num (p + q)
  | Num p, _ => if is_zero p then b else Add a b
  | _, Num q => if is_zero q then a else Add a b
  | _, _ => Add a b
  end.

Definition sub (a b : Expr) : Expr := add a (mul (Num (- (1))) b).

Definition pow (a : Expr) (n : nat) : Expr :=
  match n with
  | O => Num 1
  | S O => a
  | _ => match a with
         | Num p => Num (p ^ n)
         | _ => Pow a n
         end
  end.

Definition sin (a : Expr) : Expr :=
  match a with
  | Num q => if is_zero q then Num 0 else Sin a
  | _ => Sin a
  end.

Definition cos (a : Expr) : Expr :=
  match a with
  | Num q => if is_zero q then Num 1 else Cos a
  | _ => Cos a
  end.

Definition exp (a : Expr) : Expr :=
  match a with
  | Num q => if is_zero q then Num 1 else Exp a
  | _ => Exp a
  end.

(** [factorial(n)], a sympy Integer. *)
Definition factorial (n : nat) : Qc := Qc_of_nat (fact n).

(** [e / d] for a sympy Integer [d]: multiplication by the Rational [1/d]. *)
Definition truediv (e : Expr) (d : Qc) : Expr := mul e (Num (/ d)).

(** *** Differentiation and substitution *)

Fixpoint diff1 (e : Expr) : Expr :=
  match e with
  | Num _ => Num 0
  | X => Num 1
  | Add a b => add (diff1 a) (diff1 b)
  | Mul a b => add (mul (diff1 a) b) (mul a (diff1 b))
  | Pow a n => mul (mul (Num (Qc_of_nat n)) (pow a (n - 1))) (diff1 a)
  | Sin a => mul (cos a) (diff1 a)
  | Cos a => mul (mul (Num (- (1))) (sin a)) (diff1 a)
  | Exp a => mul (exp a) (diff1 a)
  end.

(** [diff(e, x, n)]: the [n]-th derivative with respect to [x]. *)
Definition diff (e : Expr) (n : nat) : Expr := Nat.iter n diff1 e.

(** [e.subs(x, v)]: replace the symbol and evaluate again. *)
Fixpoint subs (e : Expr) (v : Expr) : Expr :=
  match e with
  | Num q => Num q
  | X => v
  | Add a b => add (subs a v) (subs b v)
  | Mul a b => mul (subs a v) (subs b v)
  | Pow a n => pow (subs a v) n
  | Sin a => sin (subs a v)
  | Cos a => cos (subs a v)
  | Exp a => exp (subs a v)
  end.

(** *** Power series

    [series(e, x, x0, n)] expands [e] about [x0] up to, and without, the
    power [n]; [x0] defaults to [0].  The truncated series is represented
    by its coefficients in ascending powers of [x - x0]; the order term
    that [removeO()] drops is not represented.  About [x0 = 0], which is
    the only expansion the program requests, [s.coeff(x, i)] is the
    [i]-th of them, and [0] past the truncation.

    For a negative [n] sympy raises [ValueError]; the list is then
    empty.  The one caller is the Pade engine, whose call ends with
    [ValueError] in that case too ([negative_length_raises]). *)
Definition Series : Type := list Expr.

Definition series_x0_default : Qc := 0.

Definition series (e : Expr) (x0 : Qc) (n : Z) : Series :=
  map (fun k => truediv (subs (diff e k) (Num x0)) (factorial k)) (range n).

Definition removeO (s : Series) : Series := s.

Definition coeff (s : Series) (i : nat) : Expr := nth i s (Num 0).

(** Does the expression contain the symbol? *)
Fixpoint has_x (e : Expr) : bool :=
  match e with
  | Num _ => false
  | X => true
  | Add a b | Mul a b => has_x a || has_x b
  | Pow a _ | Sin a | Cos a | Exp a => has_x a
  end.

End sympy.
Import sympy.

(** ** numpy: scalars, one-dimensional arrays, polynomials *)

Module numpy.

(** A value handed to or returned by vectorised code: a scalar or a
    one-dimensional array. *)
Inductive ndarray (A : Type) : Type :=
| Scalar (v : A)
| Array1 (vs : list A).
Arguments Scalar {A} v.
Arguments Array1 {A} vs.

Inductive Shape : Type :=
| Shape0                (* () *)
| Shape1 (n : nat).     (* (n,) *)

Definition shape {A : Type} (a : ndarray A) : Shape :=
  match a with
  | Scalar _ => Shape0
  | Array1 vs => Shape1 (length vs)
  end.

(** Elementwise application of a unary function. *)
Definition ufunc1 {A B : Type} (f : A -> B) (a : ndarray A) : ndarray B :=
  match a with
  | Scalar v => Scalar (f v)
  | Array1 vs => Array1 (map f vs)
  end.

(** Elementwise application of a binary operator, a scalar being
    broadcast against an array. *)
Definition ufunc2 {A B C : Type} (f : A -> B -> C)
    (a : ndarray A) (b : ndarray B) : ndarray C :=
  match a, b with
  | Scalar u, Scalar v => Scalar (f u v)
  | Scalar u, Array1 vs => Array1 (map (f u) vs)
  | Array1 us, Scalar v => Array1 (map (fun u => f u v) us)
  | Array1 us, Array1 vs => Array1 (map (fun uv => f (fst uv) (snd uv)) (combine us vs))
  end.

Definition zeros_like (a : ndarray Qc) : ndarray Qc := ufunc1 (fun _ => 0) a.

(** [poly1d(c)]: coefficients in descending powers, leading zeros
    trimmed, the zero polynomial kept as [[0]]. *)
Definition poly1d : Type := list Qc.

Fixpoint trim_zeros_front (c : list Qc) : list Qc :=
  match c with
  | [] => []
  | a :: c' => if is_zero a then trim_zeros_front c' else c
  end.

Definition mk_poly1d (c_or_r : list Qc) : poly1d :=
  match trim_zeros_front c_or_r with
  | [] => [0]
  | c => c
  end.

(** [p(x)], Horner's rule as in [polyval]. *)
Definition polyval (p : poly1d) (x : ndarray Qc) : ndarray Qc :=
  fold_left
    (fun y pv => ufunc2 Qcplus (ufunc2 Qcmult y x) (Scalar pv))
    p (zeros_like x).

End numpy.
Import numpy.

(** ** Exceptions *)

Inductive exception : Type :=
| ValueError
| LinAlgError.

(** What a call does: it returns a value or an exception propagates. *)
Inductive outcome (A : Type) : Type :=
| Returns (a : A)
| Raises (e : exception).
Arguments Returns {A} a.
Arguments Raises {A} e.

(** ** scipy: the linear solver and the Pade routine *)

Module scipy.

(** An equation of the system: coefficients and right-hand side. *)
Definition Row : Type := (list Qc * Qc)%type.

Definition lead (r : Row) : Qc := hd 0 (fst r).

Fixpoint dot (u v : list Qc) : Qc :=
  match u, v with
  | a :: u', b :: v' => a * b + dot u' v'
  | _, _ => 0
  end.

(** Partial pivoting as in LAPACK's [gesv], which [linalg.solve] calls:
    the first row whose leading entry has the greatest magnitude, and the
    other rows.  The order of the other rows does not change the
    solution. *)
Fixpoint pick_pivot (rows : list Row) : option (Row * list Row) :=
  match rows with
  | [] => None
  | r :: rs =>
      match pick_pivot rs with
      | None => Some (r, [])
      | Some (best, others) =>
          if Qle_bool (Qabs (lead best)) (Qabs (lead r))
          then Some (r, best :: others)
          else Some (best, r :: others)
      end
  end.

(** [u - f * v], entry by entry.  The rows of a matrix have one length;
    a shorter operand counts as continued with zeros, as in [dot]. *)
Fixpoint axpy (f : Qc) (u v : list Qc) : list Qc :=
  match u, v with
  | a :: u', b :: v' => (a - f * b) :: axpy f u' v'
  | [], _ => map (fun b => 0 - f * b) v
  | _, [] => u
  end.

(** Subtract the multiple of the pivot row that clears the leading
    entry of [r], and drop that entry. *)
Definition eliminate (pr r : Row) : Row :=
  let f := lead r / lead pr in
  (axpy f (tl (fst r)) (tl (fst pr)), snd r - f * snd pr).

(** Gaussian elimination with partial pivoting on [n] unknowns, then
    back substitution, in exact arithmetic.  [None]: a zero pivot, which
    exact arithmetic meets on the singular matrices and on no other.  The
    factorisation in binary64, where rounding can hide a zero pivot, is
    [binary64.gauss]. *)
Fixpoint gauss (n : nat) (rows : list Row) : option (list Qc) :=
  match n with
  | O => Some []
  | S n' =>
      match pick_pivot rows with
      | None => None
      | Some (pr, rest) =>
          if is_zero (lead pr) then None
          else
            match gauss n' (map (eliminate pr) rest) with
            | None => None
            | Some xs =>
                Some ((snd pr - dot (tl (fst pr)) xs) / lead pr :: xs)
            end
      end
  end.

(** [linalg.solve(a, b)] for a square [a], in exact arithmetic.  Every
    entry is a rational, hence finite: [check_finite] has nothing to
    reject here; [binary64.solve] has it. *)
Definition solve (a : list (list Qc)) (b : list Qc) : outcome (list Qc) :=
  match gauss (length a) (combine a b) with
  | Some x => Returns x
  | None => Raises LinAlgError
  end.

(** [eye(N, M)] and [zeros((N, M))]. *)
Definition eye (N M : nat) : list (list Qc) :=
  map (fun i => map (fun j => if Nat.eqb i j then 1 else 0) (seq 0 M)) (seq 0 N).

Definition zeros (N M : nat) : list (list Qc) := repeat (repeat 0 M) N.

Definition hstack (A B : list (list Qc)) : list (list Qc) :=
  map (fun ab => fst ab ++ snd ab) (combine A B).

(** [l[i] = v]; the program never assigns out of range. *)
Fixpoint setitem {A : Type} (l : list A) (i : nat) (v : A) : list A :=
  match l, i with
  | [], _ => []
  | _ :: l', O => v :: l'
  | a :: l', S i' => a :: setitem l' i' v
  end.

(** [l[a:b]] *)
Definition slice {A : Type} (l : list A) (a b : nat) : list A :=
  firstn (b - a) (skipn a l).

(** [row[:k] = vals] *)
Definition set_prefix (row vals : list Qc) : list Qc :=
  vals ++ skipn (length vals) row.

Definition neg_reversed (l : list Qc) : list Qc := map Qcopp (rev l).

(** The matrix [C] that [pade] builds from the coefficients [an] for a
    denominator of order [m] and a numerator of order [n]:
<<
    Akj = eye(N+1, n+1)
    Bkj = zeros((N+1, m))
    for row in range(1, m+1):
        Bkj[row,:row] = -(an[:row])[::-1]
    for row in range(m+1, N+1):
        Bkj[row,:] = -(an[row-m:row])[::-1]
    C = hstack((Akj, Bkj))
>> *)
Definition pade_system (an : list Qc) (m n : nat) : list (list Qc) :=
  let N := (m + n)%nat in
  let Akj := eye (N + 1) (n + 1) in
  let Bkj := zeros (N + 1) m in
  let Bkj :=
    fold_left
      (fun Bkj row =>
         setitem Bkj row
           (set_prefix (nth row Bkj []) (neg_reversed (slice an 0 row))))
      (seq 1 m) Bkj in
  let Bkj :=
    fold_left
      (fun Bkj row =>
         setitem Bkj row (neg_reversed (slice an (row - m) row)))
      (seq (m + 1) (N - m)) Bkj in
  hstack Akj Bkj.

(** [interpolate.pade(an, m)] with [n] left to its default: [m] is the
    order of the denominator, [n = len(an) - 1 - m] that of the
    numerator.  The two order checks raise [ValueError], and so does
    numpy on the negative dimension of [zeros((N+1, m))].  After the
    solve, [p = pq[:n+1]] and [q = r_[1.0, pq[n+1:]]] are in ascending
    powers and are reversed into [poly1d]s. *)
Definition pade (an : list Qc) (m : Z) : outcome (poly1d * poly1d) :=
  let n := (Z.of_nat (length an) - 1 - m)%Z in
  if (n <? 0)%Z then Raises ValueError
  else
    let N := (m + n)%Z in
    if (N >? Z.of_nat (length an) - 1)%Z then Raises ValueError
    else
      let an := firstn (Z.to_nat (N + 1)) an in
      if (m <? 0)%Z then Raises ValueError
      else
        let C := pade_system an (Z.to_nat m) (Z.to_nat n) in
        match solve C an with
        | Raises e => Raises e
        | Returns pq =>
            let p := firstn (Z.to_nat n + 1) pq in
            let q := 1 :: skipn (Z.to_nat n + 1) pq in
            Returns (mk_poly1d (rev p), mk_poly1d (rev q))
        end.

(** A matrix is singular when a non-zero vector is sent to zero by
    every row. *)
Definition singular (a : list (list Qc)) : Prop :=
  exists v : list Qc,
    length v = length a /\
    (exists c, In c v /\ c <> 0) /\
    forall r, In r a -> dot r v = 0.

End scipy.
Import scipy.

(** [lambdify(x, e, modules=["numpy"])]: the generated function evaluates
    the printed expression on its argument.  A number in the expression is
    a Python scalar, the symbol is the argument, and the operators and
    functions are numpy's.  Numeric values are kept exact, as closed
    expressions. *)
Fixpoint lambdify (e : Expr) (x : ndarray Expr) : ndarray Expr :=
  match e with
  | Num q => Scalar (Num q)
  | X => x
  | Add a b => ufunc2 add (lambdify a x) (lambdify b x)
  | Mul a b => ufunc2 mul (lambdify a x) (lambdify b x)
  | Pow a n => ufunc1 (fun v => pow v n) (lambdify a x)
  | Sin a => ufunc1 sin (lambdify a x)
  | Cos a => ufunc1 cos (lambdify a x)
  | Exp a => ufunc1 exp (lambdify a x)
  end.

(** ** The Taylor engine *)

Module TaylorApproximation.

(** The attributes set by [__init__].  The attribute [x] is always the
    one symbol [X] and is not stored.  [__str__] only formats text and is
    left out, here and in the Pade engine. *)
Record t : Type := mk {
  degree : Z;
  point : Qc;
  func_symbolic : Expr;
  coefficients : list Expr
}.

Definition init (function : Expr -> Expr) (degree : Z) (point : Qc) : t :=
  {| degree := degree;
     point := point;
     func_symbolic := function X;
     coefficients := [] |}.

Definition append_coefficient (self : t) (coeff : Expr) : t :=
  {| degree := degree self;
     point := point self;
     func_symbolic := func_symbolic self;
     coefficients := coefficients self ++ [coeff] |}.

(** One iteration of the loop of [compute_coefficients]. *)
Definition compute_step (self : t) (n : nat) : t :=
  let nth_derivative := diff (func_symbolic self) n in
  let coeff := truediv (subs nth_derivative (Num (point self))) (factorial n) in
  append_coefficient self coeff.

Definition compute_coefficients (self : t) : t :=
  fold_left compute_step (range (degree self + 1)) self.

Definition series (self : t) : Expr :=
  fold_left
    (fun acc nc => add acc (mul (snd nc) (pow (sub X (Num (point self))) (fst nc))))
    (enumerate (coefficients self))
    (Num 0).

Definition evaluate_series (self : t) (x_values : ndarray Expr) : ndarray Expr :=
  let series_func := lambdify (series self) in
  series_func x_values.

End TaylorApproximation.

(** ** The Pade engine *)

Module PadeApproximation.

Record t : Type := mk {
  function : Expr;
  order_m : Z;
  order_n : Z;
  point : Qc;
  numerator : option poly1d;
  denominator : option poly1d
}.

Definition init (function : Expr -> Expr) (order_m order_n : Z) (point : Qc) : t :=
  {| function := function X;
     order_m := order_m;
     order_n := order_n;
     point := point;
     numerator := None;
     denominator := None |}.

Definition store (self : t) (pq : poly1d * poly1d) : t :=
  {| function := function self;
     order_m := order_m self;
     order_n := order_n self;
     point := point self;
     numerator := Some (fst pq);
     denominator := Some (snd pq) |}.

Section Numeric.

(** [float(c.evalf())]: the binary64 value, a rational, of a closed
    expression.  The value is finite by its type: a coefficient that
    overflows to [inf] is not represented here; [binary64.float_of]
    represents it. *)
Variable float_of : Expr -> Qc.

(** The first two statements of [compute_coefficients]. *)
Definition taylor_coeffs (self : t) : list Qc :=
  let taylor_series :=
    removeO (series (function self) series_x0_default
                    (order_m self + order_n self + 1)) in
  map (fun i => float_of (coeff taylor_series i))
      (range (order_m self + order_n self + 1)).

(** The state after the call and what the call did.  The assignment
    to [numerator] and [denominator] takes place only when [pade]
    returns. *)
Definition compute_coefficients (self : t) : t * outcome unit :=
  match pade (taylor_coeffs self) (order_n self) with
  | Returns pq => (store self pq, Returns tt)
  | Raises e => (self, Raises e)
  end.

End Numeric.

(** [evaluate]: both polynomials at [x_values], divided elementwise.  A
    zero of the denominator gives a non-finite value, [None] here.
    Before [compute_coefficients] there is no polynomial to call. *)
Definition evaluate (self : t) (x_values : ndarray Qc) : option (ndarray (option Qc)) :=
  match numerator self, denominator self with
  | Some num, Some den =>
      let numerator_values := polyval num x_values in
      let denominator_values := polyval den x_values in
      Some (ufunc2 (fun a b => if is_zero b then None else Some (a / b))
                   numerator_values denominator_values)
  | _, _ => None
  end.

End PadeApproximation.

(** The conversion to a float taken exact: the value of a rational
    constant is the constant, not rounded.  A constant that is not
    rational has no value of this kind and is read as [0]; the examples
    that use [exact_float] produce none. *)
Definition exact_float (e : Expr) : Qc :=
  match e with
  | Num q => q
  | _ => 0
  end.

(** ** The Pade engine in binary64

    The values the program stores are binary64 numbers: [float(...)]
    rounds each coefficient, and [linalg.solve] runs LAPACK's LU
    factorisation with partial pivoting in binary64.  This module follows
    the same statements as [scipy] and [PadeApproximation] above on the
    kernel's primitive binary64 numbers, so that rounding, overflow to
    [inf] and the solver's [check_finite] are part of the model.

    The operations of the factorisation are those of reference LAPACK
    ([getrf] unblocked, then [getrs]) in their order; an optimised BLAS
    may group the same operations differently, which changes the last
    bits of a result and nothing that is proved below. *)

Module binary64.

Definition float : Set := PrimFloat.float.

(** The binary64 number nearest to an integer, ties to even; an integer
    of magnitude [2**1024 - 2**970] or more overflows to an infinity. *)
Definition of_Z (z : Z) : float :=
  FloatOps.SF2Prim
    (SpecFloat.binary_normalize FloatOps.prec FloatOps.emax z 0 false).

Definition zero : float := of_Z 0.
Definition one : float := of_Z 1.

(** Integers up to [2**53] in magnitude are binary64 numbers. *)
Definition exactly_representable (z : Z) : bool := (Z.abs z <=? 2 ^ 53)%Z.

(** [float(c.evalf())] for a rational [c]: the nearest binary64 number.
    For a fraction whose numerator and denominator are binary64 numbers
    that is their binary64 quotient.  Other fractions are outside the
    fragment: [None]. *)
Definition of_Qc (q : Qc) : option float :=
  let num := Qnum q in
  let den := Zpos (Qden q) in
  if (den =? 1)%Z then Some (of_Z num)
  else if exactly_representable num && exactly_representable den
       then Some (PrimFloat.div (of_Z num) (of_Z den))
       else None.

(** [float(c.evalf())] for a closed expression.  A constant that is not
    rational, as [sin(1)], needs the correctly rounded value of a
    transcendental number and is outside the fragment. *)
Definition float_of (e : Expr) : option float :=
  match e with
  | Num q => of_Qc q
  | _ => None
  end.

(** *** numpy *)

Definition poly1d : Type := list float.

(** [0.0] and [-0.0] both compare equal to zero; a NaN does not. *)
Fixpoint trim_zeros_front (c : list float) : list float :=
  match c with
  | [] => []
  | a :: c' => if PrimFloat.is_zero a then trim_zeros_front c' else c
  end.

Definition mk_poly1d (c_or_r : list float) : poly1d :=
  match trim_zeros_front c_or_r with
  | [] => [zero]
  | c => c
  end.

Definition isfinite (l : list float) : bool := forallb PrimFloat.is_finite l.

(** *** scipy.linalg.solve *)

Definition Row : Type := (list float * float)%type.

Definition lead (r : Row) : float := hd zero (fst r).

(** BLAS [idamax]: the index of the first entry of greatest magnitude. *)
Fixpoint idamax_from (l : list float) (i best : nat) (dmax : float) : nat :=
  match l with
  | [] => best
  | a :: l' =>
      if PrimFloat.ltb dmax (PrimFloat.abs a)
      then idamax_from l' (S i) i (PrimFloat.abs a)
      else idamax_from l' (S i) best dmax
  end.

Definition idamax (l : list float) : nat :=
  match l with
  | [] => 0%nat
  | a :: l' => idamax_from l' 1 0 (PrimFloat.abs a)
  end.

(** Exchange the first row and row [p]. *)
Definition swap_first {A : Type} (l : list A) (p : nat) : list A :=
  match l, p with
  | a :: l', S p' =>
      match nth_error l' p' with
      | Some b => b :: setitem l' p' a
      | None => l
      end
  | _, _ => l
  end.

(** LAPACK's safe minimum, [2**-1022]. *)
Definition sfmin : float :=
  FloatOps.SF2Prim (SpecFloat.S754_finite false (2 ^ 52) (-1074)).

(** The multiplier of a row: the column below the pivot is scaled by the
    reciprocal of the pivot, and divided by it when the pivot is below
    the safe minimum. *)
Definition multiplier (pivot a : float) : float :=
  if PrimFloat.leb sfmin (PrimFloat.abs pivot)
  then PrimFloat.mul a (PrimFloat.div one pivot)
  else PrimFloat.div a pivot.

(** [u - l * v], entry by entry, each product and each difference
    rounded. *)
Fixpoint update (l : float) (u v : list float) : list float :=
  match u, v with
  | a :: u', b :: v' => PrimFloat.sub a (PrimFloat.mul l b) :: update l u' v'
  | _, _ => []
  end.

(** One row of the rank-one update, with the same step of the forward
    substitution on the right-hand side; the cleared leading entry is
    dropped. *)
Definition eliminate (pr r : Row) : Row :=
  let l := multiplier (lead pr) (lead r) in
  (update l (tl (fst r)) (tl (fst pr)),
   PrimFloat.sub (snd r) (PrimFloat.mul l (snd pr))).

(** Back substitution for the unknown of the pivot row: the known
    unknowns are subtracted from the last to the first, then the pivot
    divides. *)
Definition back_substitute (pr : Row) (xs : list float) : float :=
  PrimFloat.div
    (fold_left (fun b ux => PrimFloat.sub b (PrimFloat.mul (snd ux) (fst ux)))
               (rev (combine (tl (fst pr)) xs)) (snd pr))
    (lead pr).

(** LU factorisation with partial pivoting on [n] unknowns, and the two
    triangular solves.  [None]: a pivot equal to zero was met, which
    LAPACK reports as [info > 0]. *)
Fixpoint gauss (n : nat) (rows : list Row) : option (list float) :=
  match n with
  | O => Some []
  | S n' =>
      match swap_first rows (idamax (map lead rows)) with
      | [] => None
      | pr :: rest =>
          if PrimFloat.is_zero (lead pr) then None
          else
            match gauss n' (map (eliminate pr) rest) with
            | None => None
            | Some xs => Some (back_substitute pr xs :: xs)
            end
      end
  end.

(** [linalg.solve(a, b)]: [check_finite] rejects an [inf] or a NaN with
    [ValueError]; [info > 0] becomes [LinAlgError].  A matrix that is
    only ill-conditioned gives a warning, which is not an exception. *)
Definition solve (a : list (list float)) (b : list float) : outcome (list float) :=
  if negb (forallb isfinite a && isfinite b) then Raises ValueError
  else
    match gauss (length a) (combine a b) with
    | Some x => Returns x
    | None => Raises LinAlgError
    end.

(** *** scipy.interpolate.pade *)

Definition eye (N M : nat) : list (list float) :=
  map (fun i => map (fun j => if Nat.eqb i j then one else zero) (seq 0 M))
      (seq 0 N).

Definition zeros (N M : nat) : list (list float) := repeat (repeat zero M) N.

Definition hstack (A B : list (list float)) : list (list float) :=
  map (fun ab => fst ab ++ snd ab) (combine A B).

Definition set_prefix (row vals : list float) : list float :=
  vals ++ skipn (length vals) row.

Definition neg_reversed (l : list float) : list float :=
  map PrimFloat.opp (rev l).

Definition pade_system (an : list float) (m n : nat) : list (list float) :=
  let N := (m + n)%nat in
  let Akj := eye (N + 1) (n + 1) in
  let Bkj := zeros (N + 1) m in
  let Bkj :=
    fold_left
      (fun Bkj row =>
         setitem Bkj row
           (set_prefix (nth row Bkj []) (neg_reversed (slice an 0 row))))
      (seq 1 m) Bkj in
  let Bkj :=
    fold_left
      (fun Bkj row =>
         setitem Bkj row (neg_reversed (slice an (row - m) row)))
      (seq (m + 1) (N - m)) Bkj in
  hstack Akj Bkj.

Definition pade (an : list float) (m : Z) : outcome (poly1d * poly1d) :=
  let n := (Z.of_nat (length an) - 1 - m)%Z in
  if (n <? 0)%Z then Raises ValueError
  else
    let N := (m + n)%Z in
    if (N >? Z.of_nat (length an) - 1)%Z then Raises ValueError
    else
      let an := firstn (Z.to_nat (N + 1)) an in
      if (m <? 0)%Z then Raises ValueError
      else
        let C := pade_system an (Z.to_nat m) (Z.to_nat n) in
        match solve C an with
        | Raises e => Raises e
        | Returns pq =>
            let p := firstn (Z.to_nat n + 1) pq in
            let q := one :: skipn (Z.to_nat n + 1) pq in
            Returns (mk_poly1d (rev p), mk_poly1d (rev q))
        end.

(** *** The engine *)

Module PadeApproximation.

Record t : Type := mk {
  function : Expr;
  order_m : Z;
  order_n : Z;
  point : Qc;
  numerator : option poly1d;
  denominator : option poly1d
}.

Definition init (function : Expr -> Expr) (order_m order_n : Z) (point : Qc) : t :=
  {| function := function X;
     order_m := order_m;
     order_n := order_n;
     point := point;
     numerator := None;
     denominator := None |}.

Definition store (self : t) (pq : poly1d * poly1d) : t :=
  {| function := function self;
     order_m := order_m self;
     order_n := order_n self;
     point := point self;
     numerator := Some (fst pq);
     denominator := Some (snd pq) |}.

(** The list of the values when every conversion is in the fragment. *)
Fixpoint all_some {A : Type} (l : list (option A)) : option (list A) :=
  match l with
  | [] => Some []
  | None :: _ => None
  | Some a :: l' => option_map (cons a) (all_some l')
  end.

Definition taylor_coeffs (self : t) : option (list float) :=
  let taylor_series :=
    removeO (series (function self) series_x0_default
                    (order_m self + order_n self + 1)) in
  all_some
    (map (fun i => float_of (coeff taylor_series i))
         (range (order_m self + order_n self + 1))).

(** [None]: a coefficient is outside the fragment of [float_of].
    Otherwise the state after the call and what the call did. *)
Definition compute_coefficients (self : t) : option (t * outcome unit) :=
  match taylor_coeffs self with
  | None => None
  | Some an =>
      match pade an (order_n self) with
      | Returns pq => Some (store self pq, Returns tt)
      | Raises e => Some (self, Raises e)
      end
  end.

End PadeApproximation.

End binary64.

(** ** Definitions used to state the properties *)

(** [np.linspace(start, stop, num)], the grid the plotting code samples. *)
Definition linspace (start stop : Qc) (num : nat) : list Qc :=
  let step := (stop - start) / Qc_of_nat (num - 1) in
  map (fun i => Qc_of_nat i * step + start) (seq 0 num).

(** Leading coefficient and constant term of a [poly1d] (descending powers). *)
Definition leading_coefficient (p : poly1d) : Qc := hd 0 p.
Definition constant_term (p : poly1d) : Qc := last p 0.

(** The first [n] coefficients of the power series of [P(x)/Q(x)] about
    [0], for [p] and [q] in ascending powers and [q_0 <> 0]:
    [c_k = (p_k - sum_{i<k} q_{k-i} c_i) / q_0]. *)
Definition convolve_below (q cs : list Qc) (k : nat) : Qc :=
  fold_left (fun acc i => acc + nth (k - i) q 0 * nth i cs 0) (seq 0 k) 0.

Fixpoint series_quotient (p q : list Qc) (n : nat) : list Qc :=
  match n with
  | O => []
  | S k =>
      let cs := series_quotient p q k in
      cs ++ [(nth k p 0 - convolve_below q cs k) / nth 0 q 0]
  end.

(** The monomial [c * x**j] as sympy builds it, and the falling
    factorial [j (j-1) ... (j-n+1)] that differentiating it [n] times
    brings down. *)
Definition monomial (c : Qc) (j : nat) : Expr := mul (Num c) (pow X j).

Fixpoint falling (j n : nat) : Qc :=
  match n with
  | O => 1
  | S n' => falling j n' * Qc_of_nat (j - n')
  end.

(** The symbol and its powers: neither a number nor a product. *)
Definition atom (e : Expr) : Prop :=
  match e with
  | X | Pow _ _ => True
  | _ => False
  end.

(** The real function an expression stands for, and what it means for
    [g] to be the [n]-th derivative of [f] on the real line. *)
Fixpoint denote (e : Expr) (x : R) : R :=
  match e with
  | Num q => Q2R q
  | X => x
  | Add a b => denote a x + denote b x
  | Mul a b => denote a x * denote b x
  | Pow a n => Rpow_def.pow (denote a x) n
  | Sin a => Rtrigo_def.sin (denote a x)
  | Cos a => Rtrigo_def.cos (denote a x)
  | Exp a => Rtrigo_def.exp (denote a x)
  end%R.

Inductive is_nth_derivative (f : R -> R) : nat -> (R -> R) -> Prop :=
| is_derivative_0 (g : R -> R) :
    (forall x, g x = f x) -> is_nth_derivative f 0 g
| is_derivative_S (n : nat) (h g : R -> R) :
    is_nth_derivative f n h ->
    (forall x, derivable_pt_lim h x (g x)) ->
    is_nth_derivative f (S n) g.

(** A row of zeros. *)
Definition all_zero (l : list Qc) : Prop := forall c, In c l -> c = 0.


Definition Bkj_entry (an : list Qc) (r i : nat) : Qc :=
  if (i <? r)%nat then - nth (r - 1 - i) an 0 else 0.

(** Is the expression the number [0]? *)
Definition is_num_zero (e : Expr) : bool :=
  match e with
  | Num q => is_zero q
  | _ => false
  end.



(** The sum of a list of reals. *)
Definition Rsum_list (l : list R) : R := fold_right Rplus 0%R l.

(** The power [(x - point)**n] with [n >= 1]: it contains the symbol and
    is neither a number nor a product. *)
Definition power_term (t : Expr) : Prop :=
  has_x t = true /\
  match t with
  | Num _ | Mul _ _ => False
  | _ => True
  end.

(** The rational number a finite binary64 number is: [+-m * 2**e].  An
    infinity and a NaN have none; [float_value] reads them as [0] and is
    used next to [binary64.isfinite]. *)
Definition finite_value (f : binary64.float) : option Qc :=
  match FloatOps.Prim2SF f with
  | SpecFloat.S754_zero _ => Some 0
  | SpecFloat.S754_finite s m e =>
      Some (Q2Qc (inject_Z (if s then Zneg m else Zpos m) * Qpower 2 e))
  | _ => None
  end.

Definition float_value (f : binary64.float) : Qc :=
  match finite_value f with
  | Some q => q
  | None => 0
  end.

(** The tolerance of the comparisons between binary64 results and exact
    values: [10**-15]. *)
Definition tolerance : Q := 1 # 1000000000000000.

(** * Properties *)

(** ** Rational arithmetic *)

Lemma is_zero_iff (q : Qc) : is_zero q = true <-> q = 0.
Proof.
  unfold is_zero, Qc_eqb. rewrite Qeq_bool_iff. split.
  - apply Qc_is_canon.
  - intros ->. reflexivity.
Qed.

Lemma is_one_iff (q : Qc) : is_one q = true <-> q = 1.
Proof.
  unfold is_one, Qc_eqb. rewrite Qeq_bool_iff. split.
  - apply Qc_is_canon.
  - intros ->. reflexivity.
Qed.

(** Two lists of canonical rationals are equal when their fractions are. *)
Lemma Qc_list_ext (l l' : list Qc) : map this l = map this l' -> l = l'.
Proof.
  revert l'. induction l as [|a l IH]; intros [|b l'] H; simpl in H;
    try discriminate; [reflexivity|].
  injection H as Hab Hl. f_equal; [now apply Qc_decomp | now apply IH].
Qed.

Lemma Qc_of_nat_inj (a b : nat) : Qc_of_nat a = Qc_of_nat b -> a = b.
Proof.
  unfold Qc_of_nat, Qc_of_Z. rewrite Q2Qc_eq_iff.
  unfold Qeq; simpl. lia.
Qed.

Lemma factorial_nonzero (n : nat) : factorial n <> 0.
Proof.
  unfold factorial. intros H. apply (fact_neq_0 n).
  now apply Qc_of_nat_inj.
Qed.

Lemma diff_succ (e : Expr) (n : nat) : diff e (S n) = diff1 (diff e n).
Proof. reflexivity. Qed.

(** ** Real-number semantics of the expressions *)

Module RealFacts.

Lemma Q2R_Qred (q : Q) : Q2R (Qred q) = Q2R q.
Proof. apply Qeq_eqR, Qred_correct. Qed.

Lemma Q2R_Qc_0 : Q2R (0%Qc) = 0%R.
Proof. unfold Q2R; simpl; lra. Qed.

Lemma Q2R_Qc_1 : Q2R (1%Qc) = 1%R.
Proof. unfold Q2R; simpl; lra. Qed.

Lemma Q2R_Qc_plus (p q : Qc) : Q2R (p + q)%Qc = (Q2R p + Q2R q)%R.
Proof. unfold Qcplus, Q2Qc, this. now rewrite Q2R_Qred, Q2R_plus. Qed.

Lemma Q2R_Qc_mult (p q : Qc) : Q2R (p * q)%Qc = (Q2R p * Q2R q)%R.
Proof. unfold Qcmult, Q2Qc, this. now rewrite Q2R_Qred, Q2R_mult. Qed.

Lemma Q2R_Qc_inv (p : Qc) : p <> 0%Qc -> Q2R (/ p)%Qc = (/ Q2R p)%R.
Proof.
  intros Hp. unfold Qcinv, Q2Qc, this. rewrite Q2R_Qred, Q2R_inv; [reflexivity|].
  intros H. apply Hp. now apply Qc_is_canon.
Qed.

Lemma Q2R_Qc_power (p : Qc) (n : nat) : Q2R (p ^ n)%Qc = (Q2R p ^ n)%R.
Proof.
  induction n as [|n IH]; cbn [Qcpower Rpow_def.pow].
  - apply Q2R_Qc_1.
  - now rewrite Q2R_Qc_mult, IH.
Qed.

Lemma Q2R_Qc_of_nat (n : nat) : Q2R (Qc_of_nat n) = INR n.
Proof.
  unfold Qc_of_nat, Qc_of_Z, Q2Qc, this. rewrite Q2R_Qred, INR_IZR_INZ.
  unfold Q2R, inject_Z; simpl. field.
Qed.

Lemma Q2R_minus_one : Q2R (- (1))%Qc = (- 1)%R.
Proof. unfold Q2R; simpl; lra. Qed.

(** Automatic evaluation does not change the value. *)
Lemma denote_scale (c : Qc) (e : Expr) (x : R) :
  denote (scale c e) x = (Q2R c * denote e x)%R.
Proof.
  unfold scale.
  destruct (is_zero c) eqn:Hz.
  { apply is_zero_iff in Hz. subst c. cbn [denote]. rewrite Q2R_Qc_0. ring. }
  destruct (is_one c) eqn:H1.
  { apply is_one_iff in H1. subst c. rewrite Q2R_Qc_1. ring. }
  destruct e as [q| |a b|a b|a n|a|a|a]; try reflexivity.
  destruct a as [d| | | | | | |]; try reflexivity.
  destruct (is_one (c * d)) eqn:Hcd.
  - apply is_one_iff in Hcd. cbn [denote].
    rewrite <- Rmult_assoc, <- Q2R_Qc_mult, Hcd, Q2R_Qc_1. ring.
  - cbn [denote]. rewrite Q2R_Qc_mult. ring.
Qed.

Lemma denote_mul (a b : Expr) (x : R) :
  denote (mul a b) x = (denote a x * denote b x)%R.
Proof.
  unfold mul.
  destruct a as [p| | | | | | |]; destruct b as [q| | | | | | |];
    rewrite ?denote_scale; cbn [denote]; rewrite ?Q2R_Qc_mult; ring.
Qed.

Lemma denote_add (a b : Expr) (x : R) :
  denote (add a b) x = (denote a x + denote b x)%R.
Proof.
  unfold add.
  destruct a as [p| | | | | | |]; destruct b as [q| | | | | | |];
    try reflexivity;
    try (cbn [denote]; rewrite Q2R_Qc_plus; reflexivity);
    try (destruct (is_zero p) eqn:Hz; [apply is_zero_iff in Hz; subst p|];
         cbn [denote]; rewrite ?Q2R_Qc_0; ring);
    try (destruct (is_zero q) eqn:Hz; [apply is_zero_iff in Hz; subst q|];
         cbn [denote]; rewrite ?Q2R_Qc_0; ring).
Qed.

Lemma denote_pow (a : Expr) (n : nat) (x : R) :
  denote (pow a n) x = (denote a x ^ n)%R.
Proof.
  destruct n as [|[|n]].
  - cbn. apply Q2R_Qc_1.
  - cbn. ring.
  - unfold pow. destruct a; try reflexivity.
    cbn [denote]. apply Q2R_Qc_power.
Qed.

Lemma denote_sin (a : Expr) (x : R) :
  denote (sin a) x = Rtrigo_def.sin (denote a x).
Proof.
  unfold sin. destruct a as [q| | | | | | |]; try reflexivity.
  destruct (is_zero q) eqn:Hz; [|reflexivity].
  apply is_zero_iff in Hz. subst q. cbn [denote].
  now rewrite Q2R_Qc_0, sin_0.
Qed.

Lemma denote_cos (a : Expr) (x : R) :
  denote (cos a) x = Rtrigo_def.cos (denote a x).
Proof.
  unfold cos. destruct a as [q| | | | | | |]; try reflexivity.
  destruct (is_zero q) eqn:Hz; [|reflexivity].
  apply is_zero_iff in Hz. subst q. cbn [denote].
  now rewrite Q2R_Qc_0, Q2R_Qc_1, cos_0.
Qed.

Lemma denote_exp (a : Expr) (x : R) :
  denote (exp a) x = Rtrigo_def.exp (denote a x).
Proof.
  unfold exp. destruct a as [q| | | | | | |]; try reflexivity.
  destruct (is_zero q) eqn:Hz; [|reflexivity].
  apply is_zero_iff in Hz. subst q. cbn [denote].
  now rewrite Q2R_Qc_0, Q2R_Qc_1, exp_0.
Qed.

(** Substitution is composition. *)
Lemma denote_subs (e v : Expr) (y : R) :
  denote (subs e v) y = denote e (denote v y).
Proof.
  induction e as [q| |a IHa b IHb|a IHa b IHb|a IHa n|a IHa|a IHa|a IHa];
    cbn [subs]; rewrite ?denote_add, ?denote_mul, ?denote_pow,
                  ?denote_sin, ?denote_cos, ?denote_exp;
    cbn [denote]; congruence.
Qed.

Lemma denote_truediv (e : Expr) (d : Qc) (y : R) :
  d <> 0%Qc -> denote (truediv e d) y = (denote e y / Q2R d)%R.
Proof.
  intros Hd. unfold truediv. rewrite denote_mul. cbn [denote].
  now rewrite Q2R_Qc_inv.
Qed.

(** [diff1] computes the derivative. *)
Lemma diff1_sound (e : Expr) (x : R) :
  derivable_pt_lim (denote e) x (denote (diff1 e) x).
Proof.
  induction e as [q| |a IHa b IHb|a IHa b IHb|a IHa n|a IHa|a IHa|a IHa];
    cbn [diff1]; rewrite ?denote_add, ?denote_mul, ?denote_pow,
                   ?denote_sin, ?denote_cos, ?denote_exp.
  - cbn [denote]. rewrite Q2R_Qc_0. apply (derivable_pt_lim_const (Q2R q)).
  - cbn [denote]. rewrite Q2R_Qc_1. apply derivable_pt_lim_id.
  - apply (derivable_pt_lim_plus (denote a) (denote b)); assumption.
  - apply (derivable_pt_lim_mult (denote a) (denote b)); assumption.
  - cbn [denote]. rewrite Q2R_Qc_of_nat, Nat.sub_1_r.
    apply (derivable_pt_lim_comp (denote a) (fun y => y ^ n)%R); [assumption|].
    apply derivable_pt_lim_pow.
  - apply (derivable_pt_lim_comp (denote a) Rtrigo_def.sin); [assumption|].
    apply derivable_pt_lim_sin.
  - cbn [denote]. rewrite Q2R_minus_one.
    replace (-1 * Rtrigo_def.sin (denote a x))%R
      with (- Rtrigo_def.sin (denote a x))%R by ring.
    apply (derivable_pt_lim_comp (denote a) Rtrigo_def.cos); [assumption|].
    apply derivable_pt_lim_cos.
  - apply (derivable_pt_lim_comp (denote a) Rtrigo_def.exp); [assumption|].
    apply derivable_pt_lim_exp.
Qed.

Lemma diff_sound (e : Expr) (n : nat) :
  is_nth_derivative (denote e) n (denote (diff e n)).
Proof.
  induction n as [|n IH].
  - now constructor.
  - rewrite diff_succ. econstructor; [exact IH|]. intros x. apply diff1_sound.
Qed.

Lemma Q2R_factorial (n : nat) : Q2R (factorial n) = INR (fact n).
Proof. apply Q2R_Qc_of_nat. Qed.

End RealFacts.

(** ** The loop of the Taylor engine *)

Module TaylorFacts.
Import TaylorApproximation.

(** The loop appends one coefficient per index and touches nothing else. *)
Lemma compute_loop (ns : list nat) (self : t) :
  fold_left compute_step ns self =
  {| degree := degree self;
     point := point self;
     func_symbolic := func_symbolic self;
     coefficients :=
       coefficients self ++
       map (fun n => truediv (subs (diff (func_symbolic self) n) (Num (point self)))
                             (factorial n)) ns |}.
Proof.
  revert self. induction ns as [|n ns IH]; intros self; simpl.
  - rewrite app_nil_r. now destruct self.
  - rewrite IH. unfold compute_step, append_coefficient; simpl.
    now rewrite <- app_assoc.
Qed.

Lemma compute_coefficients_eq (self : t) :
  coefficients (compute_coefficients self) =
  coefficients self ++
  map (fun n => truediv (subs (diff (func_symbolic self) n) (Num (point self)))
                        (factorial n))
      (range (degree self + 1)).
Proof. unfold compute_coefficients. now rewrite compute_loop. Qed.

End TaylorFacts.

(** C1.  On a fresh instance with [degree >= 0], one call to
    [compute_coefficients] leaves [degree + 1] coefficients.  The [n]-th
    of them, for [n = 0..degree], is the expression
    [diff(f, x, n).subs(x, point) / factorial(n)], kept symbolic; its
    value is the [n]-th derivative of the function at [point] divided by
    [n!]. *)
Theorem taylor_compute_coefficients_spec
    (function : Expr -> Expr) (degree : Z) (point : Qc) :
  (0 <= degree)%Z ->
  let self :=
    TaylorApproximation.compute_coefficients
      (TaylorApproximation.init function degree point) in
  length (TaylorApproximation.coefficients self) = Z.to_nat (degree + 1) /\
  forall n : nat, (Z.of_nat n <= degree)%Z ->
    exists c : Expr,
      nth_error (TaylorApproximation.coefficients self) n = Some c /\
      c = truediv (subs (diff (function X) n) (Num point)) (factorial n) /\
      exists g : R -> R,
        is_nth_derivative (denote (function X)) n g /\
        forall y : R, denote c y = (g (Q2R point) / INR (fact n))%R.
Proof.
  intros Hdeg self. subst self.
  rewrite TaylorFacts.compute_coefficients_eq. simpl.
  unfold range. split.
  - now rewrite length_map, length_seq.
  - intros n Hn. eexists. split; [|split; [reflexivity|]].
    + rewrite nth_error_map, nth_error_seq.
      destruct (Nat.ltb_spec n (Z.to_nat (degree + 1))) as [_|Hge]; [reflexivity|lia].
    + exists (denote (diff (function X) n)). split; [apply RealFacts.diff_sound|].
      intros y.
      rewrite RealFacts.denote_truediv by apply factorial_nonzero.
      now rewrite RealFacts.denote_subs, RealFacts.Q2R_factorial.
Qed.

Lemma taylor_compute_coefficients_spec_witness :
  (0 <= 4)%Z /\
  let self :=
    TaylorApproximation.compute_coefficients
      (TaylorApproximation.init sin 4 0) in
  length (TaylorApproximation.coefficients self) = Z.to_nat (4 + 1) /\
  forall n : nat, (Z.of_nat n <= 4)%Z ->
    exists c : Expr,
      nth_error (TaylorApproximation.coefficients self) n = Some c /\
      c = truediv (subs (diff (sin X) n) (Num 0)) (factorial n) /\
      exists g : R -> R,
        is_nth_derivative (denote (sin X)) n g /\
        forall y : R, denote c y = (g (Q2R 0) / INR (fact n))%R.
Proof.
  split; [lia|].
  apply (taylor_compute_coefficients_spec sin 4 0). lia.
Defined.

(** C10.  Before [compute_coefficients] the coefficient list is empty:
    [series()] returns the constant [0], the sum over no terms, and
    [evaluate_series] evaluates that constant on any input without
    signalling the uninitialised state. *)
Theorem series_before_compute_is_zero
    (function : Expr -> Expr) (degree : Z) (point : Qc) (x_values : ndarray Expr) :
  let self := TaylorApproximation.init function degree point in
  TaylorApproximation.coefficients self = [] /\
  TaylorApproximation.series self = Num 0 /\
  TaylorApproximation.evaluate_series self x_values = Scalar (Num 0).
Proof. repeat split. Qed.

(** ** The Pade engine never reads [point] *)

Module PadeFacts.
Import PadeApproximation.

(** The extracted coefficients depend on the function and the two
    orders only. *)
Lemma taylor_coeffs_ext (float_of : Expr -> Qc) (self self' : t) :
  function self = function self' ->
  order_m self = order_m self' ->
  order_n self = order_n self' ->
  taylor_coeffs float_of self = taylor_coeffs float_of self'.
Proof. unfold taylor_coeffs. now intros -> -> ->. Qed.

Lemma length_taylor_coeffs (float_of : Expr -> Qc) (self : t) :
  length (taylor_coeffs float_of self) =
  Z.to_nat (order_m self + order_n self + 1).
Proof. unfold taylor_coeffs, range. now rewrite length_map, length_seq. Qed.

(** An exception leaves the instance as it was. *)
Lemma compute_raises_unchanged (float_of : Expr -> Qc) (self self' : t) (e : exception) :
  compute_coefficients float_of self = (self', Raises e) -> self' = self.
Proof.
  unfold compute_coefficients.
  destruct (pade _ _); intros H; now inversion H.
Qed.

(** When [order_m + order_n + 1] is negative no coefficient is
    extracted, and the call ends with [ValueError], the exception sympy
    raises for a series of negative length. *)
Lemma negative_length_raises (float_of : Expr -> Qc) (self : t) :
  (order_m self + order_n self + 1 < 0)%Z ->
  compute_coefficients float_of self = (self, Raises ValueError).
Proof.
  intros H. unfold compute_coefficients.
  pose proof (length_taylor_coeffs float_of self) as Hlen.
  destruct (taylor_coeffs float_of self) as [|c an];
    [|cbn [length] in Hlen; lia].
  unfold pade. cbn [length Z.of_nat]. change (0 - 1)%Z with (-1)%Z.
  destruct (Z.ltb_spec (-1 - order_n self) 0) as [_|Hn]; [reflexivity|].
  destruct (Z.gtb_spec (order_n self + (-1 - order_n self)) (-1)) as [_|_];
    [reflexivity|].
  destruct (Z.ltb_spec (order_n self) 0) as [_|]; [reflexivity|lia].
Qed.

End PadeFacts.

(** C9.  Two Pade instances that differ only in the stored point behave
    alike: [compute_coefficients] has the same outcome and stores the same
    numerator and denominator. *)
Theorem pade_point_never_read
    (float_of : Expr -> Qc) (function : Expr -> Expr) (order_m order_n : Z) (p1 p2 : Qc) :
  let r1 := PadeApproximation.compute_coefficients float_of
              (PadeApproximation.init function order_m order_n p1) in
  let r2 := PadeApproximation.compute_coefficients float_of
              (PadeApproximation.init function order_m order_n p2) in
  snd r1 = snd r2 /\
  PadeApproximation.numerator (fst r1) = PadeApproximation.numerator (fst r2) /\
  PadeApproximation.denominator (fst r1) = PadeApproximation.denominator (fst r2).
Proof.
  intros r1 r2. subst r1 r2. unfold PadeApproximation.compute_coefficients.
  rewrite (PadeFacts.taylor_coeffs_ext float_of
             (PadeApproximation.init function order_m order_n p1)
             (PadeApproximation.init function order_m order_n p2))
    by reflexivity.
  simpl PadeApproximation.order_n.
  destruct (pade _ order_n); repeat split.
Qed.

(** ** Negative degrees and orders *)

(** C4, as the code behaves.  Nothing is validated.  A Taylor instance
    with a negative degree is constructed, and [compute_coefficients]
    returns with the coefficient list still empty.  A Pade instance with a
    negative order is constructed as well; when the requested series
    order [order_m + order_n + 1] is not negative, its
    [compute_coefficients] fails only inside [pade], with a [ValueError],
    and stores nothing. *)
Theorem negative_parameters_not_validated
    (float_of : Expr -> Qc) (function : Expr -> Expr) (point : Qc)
    (degree order_m order_n : Z) :
  (degree < 0)%Z ->
  (order_m < 0 \/ order_n < 0)%Z ->
  (0 <= order_m + order_n + 1)%Z ->
  TaylorApproximation.coefficients
    (TaylorApproximation.compute_coefficients
       (TaylorApproximation.init function degree point)) = [] /\
  PadeApproximation.compute_coefficients float_of
    (PadeApproximation.init function order_m order_n point) =
  (PadeApproximation.init function order_m order_n point, Raises ValueError).
Proof.
  intros Hdeg Hneg Hsum. split.
  - rewrite TaylorFacts.compute_coefficients_eq. simpl. unfold range.
    replace (Z.to_nat (degree + 1)) with 0%nat by lia. reflexivity.
  - unfold PadeApproximation.compute_coefficients, pade.
    rewrite PadeFacts.length_taylor_coeffs. simpl PadeApproximation.order_m.
    simpl PadeApproximation.order_n.
    rewrite Z2Nat.id by lia.
    destruct (Z.ltb_spec (order_m + order_n + 1 - 1 - order_n) 0) as [|Hm];
      [reflexivity|].
    destruct (Z.gtb_spec (order_n + (order_m + order_n + 1 - 1 - order_n))
                         (order_m + order_n + 1 - 1)) as [|_]; [reflexivity|].
    destruct (Z.ltb_spec order_n 0) as [|Hn]; [reflexivity|lia].
Qed.

Lemma negative_parameters_not_validated_witness :
  (-1 < 0)%Z /\ (2 < 0 \/ -1 < 0)%Z /\ (0 <= 2 + -1 + 1)%Z /\
  TaylorApproximation.coefficients
    (TaylorApproximation.compute_coefficients
       (TaylorApproximation.init sin (-1) 0)) = [] /\
  PadeApproximation.compute_coefficients exact_float
    (PadeApproximation.init sin 2 (-1) 0) =
  (PadeApproximation.init sin 2 (-1) 0, Raises ValueError).
Proof.
  split; [lia|]. split; [right; lia|]. split; [lia|].
  apply (negative_parameters_not_validated exact_float sin 0 (-1) 2 (-1)); lia.
Defined.

(** C4, as stated, fails: with [degree = -1] nothing is raised, the call
    returns and the coefficient list is left empty. *)
Lemma negative_degree_counterexample :
  TaylorApproximation.compute_coefficients (TaylorApproximation.init sin (-1) 0) =
  {| TaylorApproximation.degree := (-1);
     TaylorApproximation.point := 0;
     TaylorApproximation.func_symbolic := Sin X;
     TaylorApproximation.coefficients := [] |}.
Proof. reflexivity. Qed.

(** ** Monomials *)

Lemma Qc_of_nat_mul (a b : nat) : Qc_of_nat (a * b) = Qc_of_nat a * Qc_of_nat b.
Proof.
  unfold Qc_of_nat, Qc_of_Z, Qcmult. rewrite Q2Qc_eq_iff.
  unfold Q2Qc, this. rewrite !Qred_correct, Nat2Z.inj_mul.
  unfold Qeq, Qmult; simpl. lia.
Qed.

Lemma is_zero_false (q : Qc) : is_zero q = false <-> q <> 0.
Proof.
  rewrite <- is_zero_iff. destruct (is_zero q); split; congruence.
Qed.

Lemma is_one_false (q : Qc) : is_one q = false <-> q <> 1.
Proof.
  rewrite <- is_one_iff. destruct (is_one q); split; congruence.
Qed.

Lemma is_zero_of_nat (n : nat) : is_zero (Qc_of_nat n) = Nat.eqb n 0.
Proof.
  destruct (Nat.eqb_spec n 0) as [->|Hn]; [reflexivity|].
  apply is_zero_false. intros H. apply Hn. now apply Qc_of_nat_inj.
Qed.

Lemma is_one_of_nat (n : nat) : is_one (Qc_of_nat n) = Nat.eqb n 1.
Proof.
  destruct (Nat.eqb_spec n 1) as [->|Hn]; [reflexivity|].
  apply is_one_false. intros H. apply Hn. now apply Qc_of_nat_inj.
Qed.

Lemma scale_0 (e : Expr) : scale 0 e = Num 0.
Proof. reflexivity. Qed.

Lemma scale_1 (e : Expr) : scale 1 e = e.
Proof. reflexivity. Qed.

Lemma pow_X_atom (j : nat) : atom (pow X (S j)).
Proof. destruct j; exact I. Qed.

Lemma mul_Num_atom (c : Qc) (e : Expr) :
  atom e ->
  mul (Num c) e = if is_zero c then Num 0 else if is_one c then e else Mul (Num c) e.
Proof. destruct e; simpl; try contradiction; intros _; reflexivity. Qed.

Lemma diff1_Mul (a b : Expr) :
  diff1 (Mul a b) = add (mul (diff1 a) b) (mul a (diff1 b)).
Proof. reflexivity. Qed.

Lemma diff1_pow_X (j : nat) :
  diff1 (Pow X (S (S j))) = Mul (Num (Qc_of_nat (S (S j)))) (pow X (S j)).
Proof.
  cbn [diff1]. replace (S (S j) - 1)%nat with (S j) by lia.
  rewrite (mul_Num_atom _ _ (pow_X_atom j)).
  rewrite is_zero_of_nat, is_one_of_nat. reflexivity.
Qed.

Lemma diff1_monomial (c : Qc) (j : nat) :
  diff1 (monomial c j) = monomial (c * Qc_of_nat j) (j - 1).
Proof.
  unfold monomial.
  destruct j as [|[|j]].
  - simpl. f_equal. change (Qc_of_nat 0) with 0. ring.
  - simpl pow. rewrite (mul_Num_atom c X I).
    change (Qc_of_nat 1) with 1. cbn [mul].
    destruct (is_zero c) eqn:Hz.
    + apply is_zero_iff in Hz. subst c. simpl. f_equal. 
    + destruct (is_one c) eqn:H1.
      * apply is_one_iff in H1. subst c. reflexivity.
      * cbn [diff1 mul]. rewrite scale_0. cbn [add]. f_equal. ring.
  - replace (S (S j) - 1)%nat with (S j) by lia.
    change (pow X (S (S j))) with (Pow X (S (S j))).
    rewrite (mul_Num_atom c (Pow X (S (S j))) I).
    rewrite (mul_Num_atom _ _ (pow_X_atom j)).
    pose proof (pow_X_atom j) as Hat.
    assert (Hq0 : Qc_of_nat (S (S j)) <> 0).
    { apply is_zero_false. now rewrite is_zero_of_nat. }
    assert (Hq1 : Qc_of_nat (S (S j)) <> 1).
    { apply is_one_false. now rewrite is_one_of_nat. }
    destruct (is_zero c) eqn:Hz.
    + apply is_zero_iff in Hz. subst c.
      replace (0 * Qc_of_nat (S (S j))) with 0 by ring. reflexivity.
    + destruct (is_one c) eqn:H1.
      * apply is_one_iff in H1. subst c. 
        rewrite diff1_pow_X, Qcmult_1_l.
        apply is_zero_false in Hq0. apply is_one_false in Hq1.
        now rewrite Hq0, Hq1.
      * rewrite diff1_Mul, diff1_pow_X. cbn [diff1 mul]. rewrite scale_0.
        unfold scale. rewrite Hz, H1.
        apply is_zero_false in Hz.
        assert (Hcq : c * Qc_of_nat (S (S j)) <> 0).
        { intros H. apply Qcmult_integral in H. tauto. }
        apply is_zero_false in Hcq. rewrite Hcq.
        destruct (is_one (c * Qc_of_nat (S (S j)))).
        -- destruct (pow X (S j)); try contradiction; reflexivity.
        -- reflexivity.
Qed.

Lemma diff_monomial (c : Qc) (j n : nat) :
  diff (monomial c j) n = monomial (c * falling j n) (j - n).
Proof.
  induction n as [|n IH].
  - simpl. now rewrite Qcmult_1_r, Nat.sub_0_r.
  - rewrite diff_succ, IH, diff1_monomial.
    cbn [falling]. f_equal; [ring|lia].
Qed.

Lemma subs_monomial (c : Qc) (j : nat) (p : Qc) :
  subs (monomial c j) (Num p) = Num (c * p ^ j).
Proof.
  unfold monomial. destruct j as [|[|j]].
  - reflexivity.
  - simpl pow. rewrite (mul_Num_atom c X I).
    destruct (is_zero c) eqn:Hz; [|destruct (is_one c) eqn:H1].
    + apply is_zero_iff in Hz. subst c. simpl. f_equal. ring.
    + apply is_one_iff in H1. subst c. simpl. f_equal. ring.
    + simpl. f_equal. ring.
  - change (pow X (S (S j))) with (Pow X (S (S j))).
    rewrite (mul_Num_atom c (Pow X (S (S j))) I).
    destruct (is_zero c) eqn:Hz; [|destruct (is_one c) eqn:H1].
    + apply is_zero_iff in Hz. subst c. simpl. f_equal. ring.
    + apply is_one_iff in H1. subst c. cbn [subs pow]. f_equal. ring.
    + reflexivity.
Qed.

Lemma pow_X_monomial (k : nat) : pow X k = monomial 1 k.
Proof.
  unfold monomial. destruct k as [|k]; [reflexivity|].
  now rewrite (mul_Num_atom 1 _ (pow_X_atom k)).
Qed.

Lemma falling_fact (k n : nat) :
  (n <= k)%nat -> falling k n * Qc_of_nat (fact (k - n)) = Qc_of_nat (fact k).
Proof.
  induction n as [|n IH]; intros Hn.
  - simpl. rewrite Nat.sub_0_r. ring.
  - rewrite <- IH by lia. cbn [falling].
    replace (k - n)%nat with (S (k - S n)) at 2 by lia.
    cbn [fact]. rewrite Qc_of_nat_mul.
    replace (S (k - S n)) with (k - n)%nat by lia. ring.
Qed.

Lemma falling_past (k n : nat) : (k < n)%nat -> falling k n = 0.
Proof.
  destruct n as [|n]; [lia|]. intros Hn. cbn [falling].
  replace (k - n)%nat with 0%nat by lia. change (Qc_of_nat 0) with 0. ring.
Qed.

(** The Taylor coefficients of [x**k] about any point: the binomial
    expansion of [((x - p) + p)**k]. *)
Lemma monomial_taylor_coefficient (k n : nat) (p : Qc) :
  truediv (subs (diff (pow X k) n) (Num p)) (factorial n) =
  Num (falling k n * p ^ (k - n) / factorial n).
Proof.
  rewrite pow_X_monomial, diff_monomial, subs_monomial.
  unfold truediv. cbn [mul]. f_equal. unfold Qcdiv. ring.
Qed.

(** C5, as the code behaves: about the point [0], the coefficients of
    [x**k] computed with [degree >= k] are [1] at index [k] and [0] at
    every other index. *)
Theorem power_coefficients_about_zero (k : nat) (degree : Z) :
  (Z.of_nat k <= degree)%Z ->
  forall n : nat, (Z.of_nat n <= degree)%Z ->
    nth_error
      (TaylorApproximation.coefficients
         (TaylorApproximation.compute_coefficients
            (TaylorApproximation.init (fun x => pow x k) degree 0))) n =
    Some (if Nat.eqb n k then Num 1 else Num 0).
Proof.
  intros Hk n Hn.
  rewrite TaylorFacts.compute_coefficients_eq. simpl.
  unfold range. rewrite nth_error_map, nth_error_seq.
  destruct (Nat.ltb_spec n (Z.to_nat (degree + 1))) as [_|Hge]; [|lia].
  cbn [option_map Nat.add]. rewrite monomial_taylor_coefficient.
  destruct (Nat.eqb_spec n k) as [->|Hnk]; do 2 f_equal.
  - rewrite Nat.sub_diag.
    pose proof (falling_fact k k (Nat.le_refl k)) as Hf.
    rewrite Nat.sub_diag in Hf. change (Qc_of_nat (fact 0)) with 1 in Hf.
    rewrite Qcmult_1_r in Hf. rewrite Hf. fold (factorial k).
    pose proof (factorial_nonzero k). simpl. field. assumption.
  - destruct (Nat.lt_ge_cases n k) as [Hlt|Hgt].
    + rewrite Qcpower_0 by lia. unfold Qcdiv. ring.
    + rewrite falling_past by lia. unfold Qcdiv. ring.
Qed.

Lemma power_coefficients_about_zero_witness :
  (Z.of_nat 3 <= 5)%Z /\
  forall n : nat, (Z.of_nat n <= 5)%Z ->
    nth_error
      (TaylorApproximation.coefficients
         (TaylorApproximation.compute_coefficients
            (TaylorApproximation.init (fun x => pow x 3) 5 0))) n =
    Some (if Nat.eqb n 3 then Num 1 else Num 0).
Proof.
  split; [lia|]. apply (power_coefficients_about_zero 3 5). lia.
Defined.

(** Closed equalities between computed values: evaluate, then compare
    the fractions. *)
Ltac qc_equal :=
  vm_compute;
  repeat first
    [ reflexivity
    | match goal with |- @eq Qc _ _ => apply Qc_is_canon; reflexivity end
    | f_equal ].

(** About the point [1] the coefficients of [x**2] are [1, 2, 1]. *)
Lemma square_coefficients_about_one :
  TaylorApproximation.coefficients
    (TaylorApproximation.compute_coefficients
       (TaylorApproximation.init (fun x => pow x 2) 2 1)) =
  [Num 1; Num (Qc_of_Z 2); Num 1].
Proof. qc_equal. Qed.

(** C5, as stated, fails away from [0]: for [x**2] with [degree = 2]
    about the point [1], the coefficient of index [0] is [1], not [0]. *)
Lemma power_coefficients_counterexample :
  ~ (forall n : nat, (Z.of_nat n <= 2)%Z ->
       nth_error
         (TaylorApproximation.coefficients
            (TaylorApproximation.compute_coefficients
               (TaylorApproximation.init (fun x => pow x 2) 2 1))) n =
       Some (if Nat.eqb n 2 then Num 1 else Num 0)).
Proof.
  intros H. specialize (H 0%nat ltac:(lia)).
  rewrite square_coefficients_about_one in H. simpl in H.
  injection H as H. discriminate H.
Qed.

(** ** Shapes of vectorised evaluation *)

Lemma shape_ufunc1 {A B : Type} (f : A -> B) (a : ndarray A) :
  shape (ufunc1 f a) = shape a.
Proof. destruct a; simpl; [reflexivity|now rewrite length_map]. Qed.

(** Broadcasting: two operands of one shape give that shape, and a scalar
    takes the shape of the other operand. *)
Lemma shape_ufunc2_same {A B C : Type} (f : A -> B -> C) (a : ndarray A) (b : ndarray B) :
  shape a = shape b -> shape (ufunc2 f a b) = shape a.
Proof.
  destruct a as [u|us], b as [v|vs]; simpl; try discriminate; [reflexivity|].
  intros H. injection H as H.
  now rewrite length_map, length_combine, <- H, Nat.min_id.
Qed.

Lemma shape_ufunc2_scalar_l {A B C : Type} (f : A -> B -> C) (u : A) (b : ndarray B) :
  shape (ufunc2 f (Scalar u) b) = shape b.
Proof. destruct b; simpl; [reflexivity|now rewrite length_map]. Qed.

Lemma shape_ufunc2_scalar_r {A B C : Type} (f : A -> B -> C) (a : ndarray A) (v : B) :
  shape (ufunc2 f a (Scalar v)) = shape a.
Proof. destruct a; simpl; [reflexivity|now rewrite length_map]. Qed.

(** The function generated for an expression without the symbol ignores
    its argument and returns a scalar; with the symbol it returns a value
    of the argument's shape. *)
Lemma lambdify_shape (e : Expr) (x : ndarray Expr) :
  shape (lambdify e x) = if has_x e then shape x else Shape0.
Proof.
  induction e as [q| |a IHa b IHb|a IHa b IHb|a IHa n|a IHa|a IHa|a IHa];
    cbn [lambdify has_x]; try reflexivity;
    try (rewrite shape_ufunc1; exact IHa).
  - destruct (lambdify a x) as [u|us] eqn:Ea, (lambdify b x) as [v|vs] eqn:Eb;
      destruct (has_x a), (has_x b), x as [w|ws]; simpl in *;
      try discriminate; try reflexivity;
      rewrite ?length_map, ?length_combine; try congruence.
    injection IHa as IHa. injection IHb as IHb. f_equal. lia.
  - destruct (lambdify a x) as [u|us] eqn:Ea, (lambdify b x) as [v|vs] eqn:Eb;
      destruct (has_x a), (has_x b), x as [w|ws]; simpl in *;
      try discriminate; try reflexivity;
      rewrite ?length_map, ?length_combine; try congruence.
    injection IHa as IHa. injection IHb as IHb. f_equal. lia.
Qed.

(** [p(x)] on a [poly1d] keeps the shape of [x], also for a constant
    polynomial: the Pade engine's [evaluate] is shape preserving. *)
Lemma polyval_shape (p : poly1d) (x : ndarray Qc) : shape (polyval p x) = shape x.
Proof.
  unfold polyval.
  assert (H : forall y, shape y = shape x ->
            shape (fold_left
                     (fun y pv => ufunc2 Qcplus (ufunc2 Qcmult y x) (Scalar pv)) p y)
            = shape x).
  { induction p as [|pv p IH]; intros y Hy; simpl; [exact Hy|].
    apply IH. now rewrite shape_ufunc2_scalar_r, shape_ufunc2_same. }
  apply H. unfold zeros_like. apply shape_ufunc1.
Qed.

Lemma pade_evaluate_shape (self : PadeApproximation.t) (x_values : ndarray Qc)
    (ys : ndarray (option Qc)) :
  PadeApproximation.evaluate self x_values = Some ys -> shape ys = shape x_values.
Proof.
  unfold PadeApproximation.evaluate.
  destruct (PadeApproximation.numerator self) as [num|]; [|discriminate].
  destruct (PadeApproximation.denominator self) as [den|]; [|discriminate].
  intros H. injection H as <-.
  rewrite shape_ufunc2_same; rewrite !polyval_shape; reflexivity.
Qed.

(** *** Expressions without the symbol *)

Lemma has_x_scale (c : Qc) (e : Expr) : has_x e = false -> has_x (scale c e) = false.
Proof.
  intros He. unfold scale.
  destruct (is_zero c); [reflexivity|]. destruct (is_one c); [exact He|].
  destruct e as [q| |a b|a b|a n|a|a|a]; try exact He.
  destruct a as [d| | | | | | |]; try exact He.
  simpl in He. destruct (is_one (c * d)); exact He.
Qed.

Lemma has_x_mul (a b : Expr) :
  has_x a = false -> has_x b = false -> has_x (mul a b) = false.
Proof.
  intros Ha Hb. unfold mul.
  destruct a as [p| | | | | | |]; destruct b as [q| | | | | | |];
    try reflexivity; try discriminate;
    try (apply has_x_scale; assumption);
    simpl in *; now rewrite ?Ha, ?Hb.
Qed.

Lemma has_x_add (a b : Expr) :
  has_x a = false -> has_x b = false -> has_x (add a b) = false.
Proof.
  intros Ha Hb. unfold add.
  destruct a as [p| | | | | | |]; destruct b as [q| | | | | | |];
    try reflexivity; try discriminate;
    try (destruct (is_zero p)); try (destruct (is_zero q));
    simpl in *; now rewrite ?Ha, ?Hb.
Qed.

Lemma has_x_pow (a : Expr) (n : nat) : has_x a = false -> has_x (pow a n) = false.
Proof.
  intros Ha. destruct n as [|[|n]]; [reflexivity|exact Ha|].
  destruct a; try reflexivity; exact Ha.
Qed.

Lemma has_x_subs (e : Expr) (p : Qc) : has_x (subs e (Num p)) = false.
Proof.
  induction e as [q| |a IHa b IHb|a IHa b IHb|a IHa n|a IHa|a IHa|a IHa];
    cbn [subs]; try reflexivity.
  - now apply has_x_add.
  - now apply has_x_mul.
  - now apply has_x_pow.
  - unfold sin. destruct (subs a (Num p)); try exact IHa. now destruct (is_zero q).
  - unfold cos. destruct (subs a (Num p)); try exact IHa. now destruct (is_zero q).
  - unfold exp. destruct (subs a (Num p)); try exact IHa. now destruct (is_zero q).
Qed.

(** With [degree = 0] the series is the constant [f(point)], whatever the
    function: [evaluate_series] returns a scalar for every input, also for
    an array. *)
Lemma evaluate_series_degree_zero
    (function : Expr -> Expr) (point : Qc) (x_values : ndarray Expr) :
  shape
    (TaylorApproximation.evaluate_series
       (TaylorApproximation.compute_coefficients
          (TaylorApproximation.init function 0 point)) x_values) = Shape0.
Proof.
  unfold TaylorApproximation.evaluate_series. rewrite lambdify_shape.
  replace (has_x _) with false; [reflexivity|]. symmetry.
  unfold TaylorApproximation.series.
  rewrite TaylorFacts.compute_coefficients_eq. cbn.
  apply has_x_add; [reflexivity|].
  apply has_x_mul; [|reflexivity].
  apply has_x_mul; [|reflexivity].
  apply has_x_subs.
Qed.

(** The demo's case: the degree-4 series of [sin] about [0] contains the
    symbol, and 400 sample points give 400 values. *)
Lemma evaluate_series_sin_degree_four :
  shape
    (TaylorApproximation.evaluate_series
       (TaylorApproximation.compute_coefficients (TaylorApproximation.init sin 4 0))
       (Array1 (map Num (linspace (- Qc_of_Z 3) (Qc_of_Z 3) 400)))) = Shape1 400.
Proof.
  unfold TaylorApproximation.evaluate_series. rewrite lambdify_shape.
  replace (has_x _) with true by (vm_compute; reflexivity).
  unfold shape, linspace. now rewrite !length_map, length_seq.
Qed.

(** C7 at its failing input.  For [sin] with [degree = 0] about [0] the
    only coefficient is [sin(0) = 0] and the series is the constant [0].
    On an array of 400 points [evaluate_series] returns the scalar [0],
    not an array of 400 values: the shape of the input is lost. *)
Theorem evaluate_series_constant_loses_shape :
  let self :=
    TaylorApproximation.compute_coefficients (TaylorApproximation.init sin 0 0) in
  let x_values := Array1 (map Num (linspace (- Qc_of_Z 3) (Qc_of_Z 3) 400)) in
  shape x_values = Shape1 400 /\
  TaylorApproximation.series self = Num 0 /\
  TaylorApproximation.evaluate_series self x_values = Scalar (Num 0) /\
  shape (TaylorApproximation.evaluate_series self x_values) = Shape0.
Proof.
  intros self x_values.
  assert (Hs : TaylorApproximation.series self = Num 0) by qc_equal.
  split; [|split; [exact Hs|]].
  - subst x_values. unfold shape, linspace. now rewrite !length_map, length_seq.
  - unfold TaylorApproximation.evaluate_series. rewrite Hs. split; reflexivity.
Qed.

(** ** The series the Pade engine expands *)

Lemma map_nth_seq {A B : Type} (f : A -> B) (d : A) (l : list A) :
  map (fun i => f (nth i l d)) (seq 0 (length l)) = map f l.
Proof.
  induction l as [|a l IH]; [reflexivity|].
  cbn [length seq map nth]. f_equal.
  rewrite <- seq_shift, map_map. exact IH.
Qed.

(** Whatever the stored point, the coefficients handed to [pade] are
    those of the expansion about [0]. *)
Lemma taylor_coeffs_about_zero
    (float_of : Expr -> Qc) (function : Expr -> Expr) (order_m order_n : Z) (point : Qc) :
  PadeApproximation.taylor_coeffs float_of
    (PadeApproximation.init function order_m order_n point) =
  map float_of (series (function X) 0 (order_m + order_n + 1)).
Proof.
  unfold PadeApproximation.taylor_coeffs, removeO, coeff. simpl.
  set (s := series (function X) series_x0_default (order_m + order_n + 1)).
  replace (range (order_m + order_n + 1)) with (seq 0 (length s)).
  - apply map_nth_seq.
  - unfold s, series, range. now rewrite length_map, length_seq.
Qed.

(** C2 at its failing input.  For [x**2] with orders [(2, 0)] and
    [point = 1] the engine extracts [0, 0, 1], the coefficients of the
    powers of [x], that is of the expansion about [0]; the expansion
    about the stored point [1] has the coefficients [1, 2, 1]. *)
Theorem pade_series_ignores_point :
  let self := PadeApproximation.init (fun x => pow x 2) 2 0 1 in
  PadeApproximation.taylor_coeffs exact_float self = [0; 0; 1] /\
  map exact_float
    (series (PadeApproximation.function self) (PadeApproximation.point self) 3) =
  [1; Qc_of_Z 2; 1].
Proof. split; qc_equal. Qed.

(** ** Normalisation of the denominator *)

Lemma trim_zeros_front_last_one (l : list Qc) :
  exists l', trim_zeros_front (l ++ [1]) = l' ++ [1].
Proof.
  induction l as [|a l IH].
  - exists []. reflexivity.
  - cbn [app trim_zeros_front]. destruct (is_zero a); [exact IH|].
    exists (a :: l). reflexivity.
Qed.

Lemma constant_term_mk_poly1d (l : list Qc) :
  constant_term (mk_poly1d (l ++ [1])) = 1.
Proof.
  unfold mk_poly1d, constant_term.
  destruct (trim_zeros_front_last_one l) as [l' ->].
  destruct (l' ++ [1]) eqn:E.
  - now destruct l'.
  - rewrite <- E. apply last_last.
Qed.

(** What [pade] returns has a denominator with constant term [1]. *)
Lemma pade_denominator_constant_term (an : list Qc) (m : Z) (p q : poly1d) :
  pade an m = Returns (p, q) -> constant_term q = 1.
Proof.
  unfold pade.
  destruct (_ <? 0)%Z; [discriminate|].
  destruct (_ >? _)%Z; [discriminate|].
  destruct (m <? 0)%Z; [discriminate|].
  destruct (solve _ _) as [pq|e]; [|discriminate].
  intros H. injection H as _ <-.
  cbn [rev]. apply constant_term_mk_poly1d.
Qed.

(** C8, as the code behaves: after a successful [compute_coefficients]
    the stored denominator has constant term [1]: the coefficient of the
    lowest power, last in the descending order of [poly1d]. *)
Theorem denominator_constant_term_is_one
    (float_of : Expr -> Qc) (self self' : PadeApproximation.t) :
  PadeApproximation.compute_coefficients float_of self = (self', Returns tt) ->
  exists den,
    PadeApproximation.denominator self' = Some den /\ constant_term den = 1.
Proof.
  unfold PadeApproximation.compute_coefficients.
  destruct (pade _ _) as [[p q]|e] eqn:E; intros H; [|discriminate].
  injection H as <-. exists q. split; [reflexivity|].
  exact (pade_denominator_constant_term _ _ _ _ E).
Qed.

Lemma denominator_constant_term_is_one_witness :
  let self := PadeApproximation.init sin 3 2 0 in
  let self' := fst (PadeApproximation.compute_coefficients exact_float self) in
  PadeApproximation.compute_coefficients exact_float self = (self', Returns tt) /\
  exists den,
    PadeApproximation.denominator self' = Some den /\ constant_term den = 1.
Proof.
  intros self self'.
  assert (H : PadeApproximation.compute_coefficients exact_float self = (self', Returns tt))
    by (vm_compute; reflexivity).
  split; [exact H|].
  exact (denominator_constant_term_is_one exact_float self self' H).
Defined.

(** The [3/2] approximant of [sin] about [0]:
    [(x - 7/60 x**3) / (1 + 1/20 x**2)]. *)
Lemma pade_sin_3_2 :
  PadeApproximation.compute_coefficients exact_float (PadeApproximation.init sin 3 2 0) =
  ({| PadeApproximation.function := Sin X;
      PadeApproximation.order_m := 3;
      PadeApproximation.order_n := 2;
      PadeApproximation.point := 0;
      PadeApproximation.numerator := Some [Q2Qc (-7 # 60); 0; 1; 0];
      PadeApproximation.denominator := Some [Q2Qc (1 # 20); 0; 1] |},
   Returns tt).
Proof. qc_equal. Qed.

(** C8, as stated, fails: for [sin] with orders [(3, 2)] the call
    succeeds and the stored denominator is [1/20 x**2 + 1], whose leading
    coefficient is [1/20]. *)
Lemma denominator_leading_coefficient_counterexample :
  let r := PadeApproximation.compute_coefficients exact_float
             (PadeApproximation.init sin 3 2 0) in
  snd r = Returns tt /\
  option_map leading_coefficient (PadeApproximation.denominator (fst r)) =
    Some (Q2Qc (1 # 20)) /\
  Q2Qc (1 # 20) <> 1.
Proof.
  cbv zeta. rewrite pade_sin_3_2. repeat split. discriminate.
Qed.

(** ** Power series of a quotient *)

Module QuotientFacts.

Lemma fold_left_add_ext (f g : nat -> Qc) (l : list nat) (a : Qc) :
  (forall i, In i l -> f i = g i) ->
  fold_left (fun acc i => acc + f i) l a = fold_left (fun acc i => acc + g i) l a.
Proof.
  revert a. induction l as [|i l IH]; intros a H; [reflexivity|].
  simpl. rewrite (H i) by now left. apply IH. intros j Hj. apply H. now right.
Qed.

Lemma convolve_below_app (q cs t : list Qc) (k : nat) :
  (k <= length cs)%nat -> convolve_below q (cs ++ t) k = convolve_below q cs k.
Proof.
  intros Hk. unfold convolve_below. apply fold_left_add_ext.
  intros i Hi. apply in_seq in Hi. now rewrite app_nth1 by lia.
Qed.

Lemma length_series_quotient (p q : list Qc) (n : nat) :
  length (series_quotient p q n) = n.
Proof.
  induction n as [|n IH]; [reflexivity|].
  cbn [series_quotient]. rewrite length_app, IH. simpl. lia.
Qed.

Lemma series_quotient_prefix (p q : list Qc) (n d : nat) :
  exists t, series_quotient p q (n + d) = series_quotient p q n ++ t.
Proof.
  induction d as [|d [t IH]].
  - exists []. now rewrite Nat.add_0_r, app_nil_r.
  - rewrite Nat.add_succ_r. cbn [series_quotient]. rewrite IH.
    eexists. now rewrite <- app_assoc.
Qed.

Lemma nth_series_quotient (p q : list Qc) (n k : nat) :
  (k < n)%nat ->
  nth k (series_quotient p q n) 0 =
  (nth k p 0 - convolve_below q (series_quotient p q k) k) / nth 0 q 0.
Proof.
  intros Hk. destruct (series_quotient_prefix p q (S k) (n - S k)) as [t Ht].
  replace (S k + (n - S k))%nat with n in Ht by lia. rewrite Ht.
  rewrite app_nth1 by (rewrite length_series_quotient; lia).
  cbn [series_quotient].
  rewrite app_nth2 by (rewrite length_series_quotient; lia).
  now rewrite length_series_quotient, Nat.sub_diag.
Qed.

(** The coefficients [c] of the quotient are those with [Q * c = P]
    power by power: [sum_{i<=k} q_{k-i} c_i = p_k]. *)
Lemma series_quotient_spec (p q : list Qc) (n k : nat) :
  nth 0 q 0 <> 0 -> (k < n)%nat ->
  convolve_below q (series_quotient p q n) k
  + nth 0 q 0 * nth k (series_quotient p q n) 0 = nth k p 0.
Proof.
  intros Hq Hk. rewrite nth_series_quotient by exact Hk.
  destruct (series_quotient_prefix p q k (n - k)) as [t Ht].
  replace (k + (n - k))%nat with n in Ht by lia. rewrite Ht.
  rewrite convolve_below_app by (rewrite length_series_quotient; lia).
  field. exact Hq.
Qed.

End QuotientFacts.

(** C3.  In binary64, for [sin] with orders [(3, 2)] about [0] the call
    succeeds and stores a numerator with 4 coefficients and a
    denominator with 3, that is, of degrees 3 and 2, all of them finite.
    The quotient of the two stored polynomials, taken with the exact
    values of their binary64 coefficients and expanded about [0] through
    order 5, agrees within [10**-15] at every order with the
    coefficients [0, 1, 0, -1/6, 0, 1/120] that the Taylor engine
    computes for [sin] with [degree = 5]. *)
Theorem pade_sin_reconstruction :
  let self := binary64.PadeApproximation.init sin 3 2 0 in
  let taylor := TaylorApproximation.compute_coefficients
                  (TaylorApproximation.init sin 5 0) in
  exists (P Q : binary64.poly1d) (t : list Qc),
    binary64.PadeApproximation.compute_coefficients self =
      Some (binary64.PadeApproximation.store self (P, Q), Returns tt) /\
    length P = 4%nat /\ length Q = 3%nat /\
    binary64.isfinite P = true /\ binary64.isfinite Q = true /\
    TaylorApproximation.coefficients taylor = map Num t /\
    forall k, (k < 6)%nat ->
      (Qabs (nth k (series_quotient (rev (map float_value P))
                                    (rev (map float_value Q)) 6) 0
             - nth k t 0)%Qc
       <= tolerance)%Q.
Proof.
  intros self taylor.
  destruct (binary64.PadeApproximation.compute_coefficients self)
    as [[self' [[]|e]]|] eqn:E; try (vm_compute in E; discriminate E).
  destruct (binary64.PadeApproximation.numerator self') as [P|] eqn:EP;
    [|vm_compute in E; injection E as <-; discriminate EP].
  destruct (binary64.PadeApproximation.denominator self') as [Q|] eqn:EQ;
    [|vm_compute in E; injection E as <-; discriminate EQ].
  exists P, Q, [0; 1; 0; Q2Qc (-1 # 6); 0; Q2Qc (1 # 120)].
  vm_compute in E. injection E as <-.
  injection EP as <-. injection EQ as <-.
  split; [reflexivity|].
  split; [reflexivity|]. split; [reflexivity|].
  split; [reflexivity|]. split; [reflexivity|].
  split; [qc_equal|].
  intros k Hk. apply Qle_bool_imp_le.
  do 6 (destruct k as [|k]; [vm_compute; reflexivity|]). lia.
Qed.

(** ** The linear solver on a singular matrix: exact arithmetic *)

Module SolveFacts.

Lemma dot_nil_r (u : list Qc) : dot u [] = 0.
Proof. now destruct u. Qed.

Lemma dot_cons_r (u : list Qc) (c : Qc) (v : list Qc) :
  dot u (c :: v) = hd 0 u * c + dot (tl u) v.
Proof. destruct u as [|a u]; simpl; [ring|reflexivity]. Qed.

Lemma dot_map_scaled (f : Qc) (w v : list Qc) :
  dot (map (fun b => 0 - f * b) w) v = 0 - f * dot w v.
Proof.
  revert v. induction w as [|b w IH]; intros [|c v]; simpl; try ring.
  rewrite IH. ring.
Qed.

Lemma dot_axpy (f : Qc) (u w v : list Qc) :
  dot (axpy f u w) v = dot u v - f * dot w v.
Proof.
  revert w v. induction u as [|a u IH]; intros w v.
  - cbn [axpy]. rewrite dot_map_scaled. simpl. ring.
  - destruct w as [|b w]; cbn [axpy].
    + simpl dot at 3. ring.
    + destruct v as [|c v]; simpl; [ring|]. rewrite IH. ring.
Qed.

Lemma pick_pivot_In (rows : list Row) (pr : Row) (rest : list Row) :
  pick_pivot rows = Some (pr, rest) ->
  In pr rows /\ forall r, In r rest -> In r rows.
Proof.
  revert pr rest. induction rows as [|r rows IH]; intros pr rest; simpl.
  - discriminate.
  - destruct (pick_pivot rows) as [[best others]|].
    + destruct (IH best others eq_refl) as [Hb Ho].
      destruct (Qle_bool _ _); intros H; injection H as <- <-.
      * split; [now left|]. intros r' [<-|Hr']; right; auto.
      * split; [now right|]. intros r' [<-|Hr']; [now left|right; auto].
    + intros H. injection H as <- <-. split; [now left|]. intros r' [].
Qed.

(** When the elimination succeeds, the only vector that every row
    sends to zero is the zero vector. *)
Lemma gauss_kernel (n : nat) :
  forall (rows : list Row) (xs : list Qc),
    gauss n rows = Some xs ->
    forall v : list Qc,
      length v = n ->
      (forall r, In r rows -> dot (fst r) v = 0) ->
      forall c, In c v -> c = 0.
Proof.
  induction n as [|n IH]; intros rows xs Hg v Hlen Hker c Hc.
  - destruct v; [contradiction|discriminate].
  - cbn [gauss] in Hg.
    destruct (pick_pivot rows) as [[pr rest]|] eqn:Hp; [|discriminate].
    destruct (is_zero (lead pr)) eqn:Hz; [discriminate|].
    destruct (gauss n (map (eliminate pr) rest)) as [ys|] eqn:Hrec; [|discriminate].
    apply is_zero_false in Hz.
    destruct (pick_pivot_In _ _ _ Hp) as [Hpr Hrest].
    destruct v as [|v0 vs]; [discriminate|]. injection Hlen as Hlen.
    assert (Hvs : forall c', In c' vs -> c' = 0).
    { apply (IH _ _ Hrec vs Hlen). intros r' Hr'.
      apply in_map_iff in Hr' as [r [<- Hr]].
      unfold eliminate. cbn [fst]. rewrite dot_axpy.
      pose proof (Hker r (Hrest r Hr)) as Er.
      pose proof (Hker pr Hpr) as Ep.
      rewrite dot_cons_r in Er, Ep. fold (lead r) in Er. fold (lead pr) in Ep.
      replace (dot (tl (fst r)) vs) with (0 - lead r * v0)
        by (rewrite <- Er; ring).
      replace (dot (tl (fst pr)) vs) with (0 - lead pr * v0)
        by (rewrite <- Ep; ring).
      field. exact Hz. }
    destruct Hc as [<-|Hc]; [|now apply Hvs].
    pose proof (Hker pr Hpr) as Ep. rewrite dot_cons_r in Ep.
    fold (lead pr) in Ep.
    assert (Hd : forall u, dot u vs = 0).
    { clear -Hvs. induction vs as [|a vs IHv]; intros u.
      - apply dot_nil_r.
      - rewrite dot_cons_r, (Hvs a) by now left.
        rewrite IHv by (intros; apply Hvs; now right). ring. }
    rewrite Hd in Ep.
    apply (Qcmult_integral_l (lead pr)); [exact Hz|].
    rewrite <- Ep. ring.
Qed.

Lemma solve_singular (a : list (list Qc)) (b : list Qc) :
  singular a -> solve a b = Raises LinAlgError.
Proof.
  intros (v & Hlen & (c & Hc & Hc0) & Hker). unfold solve.
  destruct (gauss (length a) (combine a b)) as [xs|] eqn:Hg; [|reflexivity].
  exfalso. apply Hc0.
  apply (gauss_kernel _ _ _ Hg v Hlen); [|exact Hc].
  intros [r d] Hr. apply in_combine_l in Hr. now apply Hker.
Qed.

(** With non-negative orders and as many coefficients as the orders
    ask for, [pade] reaches the solver with the system [pade_system]. *)
Lemma pade_singular (an : list Qc) (m n : Z) :
  (0 <= m)%Z -> (0 <= n)%Z ->
  Z.of_nat (length an) = (n + m + 1)%Z ->
  singular (pade_system an (Z.to_nat m) (Z.to_nat n)) ->
  pade an m = Raises LinAlgError.
Proof.
  intros Hm Hn Hlen Hsing. unfold pade. rewrite Hlen.
  replace (n + m + 1 - 1 - m)%Z with n by lia.
  destruct (Z.ltb_spec n 0) as [|_]; [lia|].
  destruct (Z.gtb_spec (m + n) (n + m + 1 - 1)) as [|_]; [lia|].
  destruct (Z.ltb_spec m 0) as [|_]; [lia|].
  rewrite firstn_all2 by lia.
  now rewrite solve_singular.
Qed.

End SolveFacts.

(** *** A singular system that binary64 solves *)

Module Binary64Facts.




(** The step that hides the zero pivot: [-103] is scaled by the
    reciprocal of the pivot [-10609], and [-1 - l * (-103)], which is
    [0] for [l = 103/10609], is rounded to [-2**-53]. *)
Lemma rounding_hides_zero_pivot :
  let l := binary64.multiplier (binary64.of_Z (-10609)) (binary64.of_Z (-103)) in
  binary64.update l [binary64.of_Z (-1)] [binary64.of_Z (-103)] =
    [FloatOps.SF2Prim (SpecFloat.S754_finite true (2 ^ 52) (-105))] /\
  finite_value (FloatOps.SF2Prim (SpecFloat.S754_finite true (2 ^ 52) (-105))) =
    Some (Q2Qc (-1 # 2 ^ 53)).
Proof. split; [vm_compute; reflexivity|qc_equal]. Qed.

(** A coefficient that overflows: for [2**1024 * x] with orders
    [(1, 0)] the conversion gives [inf], which [check_finite] rejects,
    and the call ends with [ValueError]. *)
Lemma overflow_raises_value_error :
  let self := binary64.PadeApproximation.init
                (fun x => mul (Num (Qc_of_Z (2 ^ 1024))) x) 1 0 0 in
  binary64.PadeApproximation.taylor_coeffs self =
    Some [binary64.zero; PrimFloat.infinity] /\
  binary64.PadeApproximation.compute_coefficients self =
    Some (self, Raises ValueError).
Proof. split; vm_compute; reflexivity. Qed.

End Binary64Facts.




(** In exact arithmetic [x**2] with orders [(1, 1)] behaves as it does
    in binary64: the coefficients [0, 0, 1] give a zero column, the call
    raises and stores nothing. *)
Lemma pade_square_1_1_raises :
  let self := PadeApproximation.init (fun x => pow x 2) 1 1 0 in
  PadeApproximation.compute_coefficients exact_float self = (self, Raises LinAlgError).
Proof. vm_compute. reflexivity. Qed.

(** *** In exact arithmetic the solver returns the solution, and fails only on a singular matrix *)

Module SolveValid.
Import SolveFacts.

Lemma pick_pivot_split (rows : list Row) (pr : Row) (rest : list Row) :
  pick_pivot rows = Some (pr, rest) ->
  length rows = S (length rest) /\
  (forall r, In r rows -> r = pr \/ In r rest) /\
  (forall r, In r rows -> Qabs (lead r) <= Qabs (lead pr))%Q.
Proof.
  revert pr rest. induction rows as [|r rows IH]; intros pr rest; simpl.
  - discriminate.
  - destruct (pick_pivot rows) as [[best others]|] eqn:Hp.
    + destruct (IH best others eq_refl) as (Hl & Hin & Hmax).
      destruct (Qle_bool (Qabs (lead best)) (Qabs (lead r))) eqn:Hle;
        intros H; injection H as <- <-.
      * apply Qle_bool_iff in Hle. split; [simpl; lia|]. split.
        -- intros r' [<-|Hr']; [now left|]. right.
           destruct (Hin r' Hr') as [->|]; [now left|now right].
        -- intros r' [<-|Hr']; [apply Qle_refl|].
           eapply Qle_trans; [apply (Hmax r' Hr')|exact Hle].
      * split; [simpl; lia|]. split.
        -- intros r' [<-|Hr']; [right; now left|].
           destruct (Hin r' Hr') as [->|]; [now left|right; now right].
        -- intros r' [<-|Hr']; [|now apply Hmax].
           apply Qlt_le_weak, Qnot_le_lt. intros Hc.
           apply Qle_bool_iff in Hc. congruence.
    + destruct rows as [|r0 rows]; [|simpl in Hp;
        destruct (pick_pivot rows) as [[? ?]|];
        [destruct (Qle_bool _ _)|]; discriminate].
      intros H. injection H as <- <-. split; [reflexivity|]. split.
      * intros r' [<-|[]]. now left.
      * intros r' [<-|[]]. apply Qle_refl.
Qed.

(** On as many equations as unknowns, the vector returned satisfies
    every equation. *)
Lemma gauss_solution (n : nat) :
  forall (rows : list Row) (xs : list Qc),
    length rows = n ->
    gauss n rows = Some xs ->
    length xs = n /\ forall r, In r rows -> dot (fst r) xs = snd r.
Proof.
  induction n as [|n IH]; intros rows xs Hlen Hg.
  - destruct rows; [|discriminate]. injection Hg as <-. split; [reflexivity|].
    intros r [].
  - cbn [gauss] in Hg.
    destruct (pick_pivot rows) as [[pr rest]|] eqn:Hp; [|discriminate].
    destruct (is_zero (lead pr)) eqn:Hz; [discriminate|].
    destruct (gauss n (map (eliminate pr) rest)) as [ys|] eqn:Hrec; [|discriminate].
    injection Hg as <-. apply is_zero_false in Hz.
    destruct (pick_pivot_split _ _ _ Hp) as (Hl & Hin & _).
    destruct (IH (map (eliminate pr) rest) ys) as [Hys Hsol];
      [rewrite length_map; lia|exact Hrec|].
    split; [simpl; now rewrite Hys|].
    assert (Hpr : dot (fst pr) ((snd pr - dot (tl (fst pr)) ys) / lead pr :: ys)
                  = snd pr).
    { rewrite dot_cons_r. fold (lead pr). field. exact Hz. }
    intros r Hr. destruct (Hin r Hr) as [->|Hrest]; [exact Hpr|].
    pose proof (Hsol (eliminate pr r) (in_map _ _ _ Hrest)) as E.
    unfold eliminate in E. cbn [fst snd] in E. rewrite dot_axpy in E.
    rewrite dot_cons_r. fold (lead r).
    replace (dot (tl (fst r)) ys)
      with (snd r - lead r / lead pr * snd pr
            + lead r / lead pr * dot (tl (fst pr)) ys)
      by (rewrite <- E; ring).
    field. exact Hz.
Qed.

Lemma dot_zeros (u : list Qc) (k : nat) : dot u (repeat 0 k) = 0.
Proof.
  revert u. induction k as [|k IH]; intros u; simpl.
  - apply dot_nil_r.
  - rewrite dot_cons_r, IH. ring.
Qed.

Lemma Qc_abs_le_zero (a b : Qc) : (Qabs a <= Qabs b)%Q -> b = 0 -> a = 0.
Proof.
  intros Hle ->. apply Qc_is_canon.
  change (Qabs (this 0)) with (0%Q) in Hle.
  apply Qabs_Qle_condition in Hle. destruct Hle as [H1 H2].
  apply Qle_antisym; assumption.
Qed.

(** The elimination fails only when some non-zero vector is sent to
    zero by every row. *)
Lemma gauss_complete (n : nat) :
  forall rows : list Row,
    length rows = n ->
    gauss n rows = None ->
    exists v, length v = n /\ (exists c, In c v /\ c <> 0) /\
              forall r, In r rows -> dot (fst r) v = 0.
Proof.
  induction n as [|n IH]; intros rows Hlen Hg; [discriminate|].
  cbn [gauss] in Hg.
  destruct (pick_pivot rows) as [[pr rest]|] eqn:Hp;
    [|destruct rows; [discriminate|simpl in Hp;
       destruct (pick_pivot rows) as [[? ?]|];
       [destruct (Qle_bool _ _)|]; discriminate]].
  destruct (pick_pivot_split _ _ _ Hp) as (Hl & Hin & Hmax).
  destruct (is_zero (lead pr)) eqn:Hz.
  - apply is_zero_iff in Hz.
    exists (1 :: repeat 0 n). split; [simpl; now rewrite repeat_length|]. split.
    + exists 1. split; [now left|discriminate].
    + intros r Hr. rewrite dot_cons_r, dot_zeros. fold (lead r).
      rewrite (Qc_abs_le_zero _ _ (Hmax r Hr) Hz). ring.
  - apply is_zero_false in Hz.
    destruct (gauss n (map (eliminate pr) rest)) as [ys|] eqn:Hrec; [discriminate|].
    destruct (IH (map (eliminate pr) rest)) as (vs & Hvs & Hnz & Hker);
      [rewrite length_map; lia|exact Hrec|].
    exists ((0 - dot (tl (fst pr)) vs) / lead pr :: vs).
    split; [simpl; now rewrite Hvs|]. split.
    + destruct Hnz as (c & Hc & Hc0). exists c. split; [now right|exact Hc0].
    + assert (Hpr : dot (fst pr) ((0 - dot (tl (fst pr)) vs) / lead pr :: vs) = 0).
      { rewrite dot_cons_r. fold (lead pr). field. exact Hz. }
      intros r Hr. destruct (Hin r Hr) as [->|Hrest]; [exact Hpr|].
      pose proof (Hker (eliminate pr r) (in_map _ _ _ Hrest)) as E.
      unfold eliminate in E. cbn [fst] in E. rewrite dot_axpy in E.
      rewrite dot_cons_r. fold (lead r).
      replace (dot (tl (fst r)) vs)
        with (lead r / lead pr * dot (tl (fst pr)) vs)
        by (rewrite <- (Qcplus_0_l (_ * _)), <- E; ring).
      field. exact Hz.
Qed.

Lemma In_combine_nth {A B : Type} (a : list A) (b : list B) (i : nat) (r : A) (d : B) :
  nth_error a i = Some r -> nth_error b i = Some d -> In (r, d) (combine a b).
Proof.
  revert b i. induction a as [|r0 a IH]; intros [|d0 b] [|i] Hi Hb; try discriminate.
  - injection Hi as ->. injection Hb as ->. now left.
  - right. now apply (IH b i).
Qed.

Lemma nth_error_same_length {A B : Type} (a : list A) (b : list B) (i : nat) (r : A) :
  length b = length a -> nth_error a i = Some r -> exists d, nth_error b i = Some d.
Proof.
  intros Hlen Hi. destruct (nth_error b i) as [d|] eqn:Hb; [now exists d|].
  apply nth_error_None in Hb.
  assert (nth_error a i <> None) by congruence.
  apply nth_error_Some in H. lia.
Qed.

(** [solve] on a square system: the value returned solves it, and
    [LinAlgError] is raised exactly when the matrix is singular. *)
Lemma solve_returns (a : list (list Qc)) (b x : list Qc) :
  length b = length a ->
  solve a b = Returns x ->
  length x = length a /\
  forall i r, nth_error a i = Some r -> Some (dot r x) = nth_error b i.
Proof.
  intros Hlen. unfold solve.
  destruct (gauss (length a) (combine a b)) as [xs|] eqn:Hg; [|discriminate].
  intros H. injection H as <-.
  assert (Hc : length (combine a b) = length a)
    by (rewrite length_combine, Hlen; apply Nat.min_id).
  destruct (gauss_solution _ _ _ Hc Hg) as [Hx Hsol].
  split; [exact Hx|]. intros i r Hi.
  destruct (nth_error_same_length a b i r Hlen Hi) as [d Hb]. rewrite Hb.
  f_equal. exact (Hsol (r, d) (In_combine_nth _ _ _ _ _ Hi Hb)).
Qed.

Lemma solve_raises_iff_singular (a : list (list Qc)) (b : list Qc) :
  length b = length a ->
  (solve a b = Raises LinAlgError <-> singular a).
Proof.
  intros Hlen. split; [|apply solve_singular].
  unfold solve.
  destruct (gauss (length a) (combine a b)) as [xs|] eqn:Hg; [discriminate|].
  intros _.
  assert (Hc : length (combine a b) = length a)
    by (rewrite length_combine, Hlen; apply Nat.min_id).
  destruct (gauss_complete (length a) (combine a b) Hc Hg) as (v & Hv & Hnz & Hker).
  - exists v. split; [exact Hv|]. split; [exact Hnz|].
    intros r Hr. apply In_nth_error in Hr as [i Hi].
    destruct (nth_error_same_length a b i r Hlen Hi) as [d Hb].
    exact (Hker (r, d) (In_combine_nth _ _ _ _ _ Hi Hb)).
Qed.

End SolveValid.

(** *** All coefficients zero *)

Module ZeroCoefficients.
Import SolveFacts SolveValid.

Lemma In_firstn_In {A : Type} (k : nat) (l : list A) (a : A) :
  In a (firstn k l) -> In a l.
Proof.
  revert l. induction k as [|k IH]; intros [|b l] H; simpl in H; try contradiction.
  destruct H as [<-|H]; [now left|right; now apply IH].
Qed.

Lemma In_skipn_In {A : Type} (k : nat) (l : list A) (a : A) :
  In a (skipn k l) -> In a l.
Proof.
  revert l. induction k as [|k IH]; intros [|b l] H; simpl in H;
    try contradiction; try exact H.
  right. now apply IH.
Qed.

Lemma all_zero_repeat (k : nat) : all_zero (repeat 0 k).
Proof. intros c Hc. now apply repeat_spec in Hc. Qed.

Lemma all_zero_neg_reversed_slice (an : list Qc) (a b : nat) :
  all_zero an -> all_zero (neg_reversed (slice an a b)).
Proof.
  intros Han c Hc. unfold neg_reversed, slice in Hc.
  apply in_map_iff in Hc as [c' [<- Hc']].
  apply in_rev in Hc'. apply In_firstn_In in Hc'. apply In_skipn_In in Hc'.
  now rewrite (Han c' Hc').
Qed.

Lemma all_zero_set_prefix (row vals : list Qc) :
  all_zero row -> all_zero vals -> all_zero (set_prefix row vals).
Proof.
  intros Hr Hv c Hc. unfold set_prefix in Hc.
  apply in_app_or in Hc as [Hc|Hc]; [now apply Hv|].
  apply In_skipn_In in Hc. now apply Hr.
Qed.

Lemma In_setitem {A : Type} (l : list A) (i : nat) (v a : A) :
  In a (setitem l i v) -> a = v \/ In a l.
Proof.
  revert i. induction l as [|b l IH]; intros [|i] Ha; simpl in Ha;
    try contradiction.
  - destruct Ha as [<-|Ha]; [now left|right; now right].
  - destruct Ha as [<-|Ha]; [right; now left|].
    destruct (IH i Ha); [now left|right; now right].
Qed.

Lemma length_setitem {A : Type} (l : list A) (i : nat) (v : A) :
  length (setitem l i v) = length l.
Proof.
  revert i. induction l as [|b l IH]; intros [|i]; simpl; try reflexivity.
  now rewrite IH.
Qed.

(** A loop that assigns rows keeps the number of rows, and keeps the rows
    zero when it assigns zero rows. *)
Lemma assign_rows_invariant (F : list (list Qc) -> nat -> list Qc)
    (rows : list nat) (B : list (list Qc)) :
  (forall B' r, (forall b, In b B' -> all_zero b) -> all_zero (F B' r)) ->
  (forall b, In b B -> all_zero b) ->
  let B' := fold_left (fun B r => setitem B r (F B r)) rows B in
  length B' = length B /\ forall b, In b B' -> all_zero b.
Proof.
  intros HF. revert B. induction rows as [|r rows IH]; intros B HB; simpl.
  - now split.
  - destruct (IH (setitem B r (F B r))) as [Hl Hz].
    + intros b Hb. apply In_setitem in Hb as [->|Hb]; [now apply HF|now apply HB].
    + split; [now rewrite Hl, length_setitem|exact Hz].
Qed.

Lemma nth_all_zero (B : list (list Qc)) (i : nat) :
  (forall b, In b B -> all_zero b) -> all_zero (nth i B []).
Proof.
  intros HB. destruct (nth_in_or_default i B []) as [H| ->]; [now apply HB|].
  intros c [].
Qed.

Lemma dot_all_zero (u v : list Qc) : all_zero u -> dot u v = 0.
Proof.
  revert v. induction u as [|a u IH]; intros v Hu; [reflexivity|].
  destruct v as [|b v]; [reflexivity|]. simpl.
  rewrite (Hu a) by now left.
  rewrite IH by (intros c Hc; apply Hu; now right). ring.
Qed.

Lemma dot_app (a b z w : list Qc) :
  length a = length z -> dot (a ++ b) (z ++ w) = dot a z + dot b w.
Proof.
  revert z. induction a as [|x a IH]; intros [|y z] Hl; try discriminate; simpl.
  - ring.
  - injection Hl as Hl. rewrite IH by exact Hl. ring.
Qed.

Lemma length_eye (N M : nat) :
  length (eye N M) = N /\ forall a, In a (eye N M) -> length a = M.
Proof.
  unfold eye. split; [now rewrite length_map, length_seq|].
  intros a Ha. apply in_map_iff in Ha as [i [<- _]].
  now rewrite length_map, length_seq.
Qed.

(** With a denominator of order at least one, coefficients that are all
    zero give a singular system. *)
Lemma zero_coefficients_singular (an : list Qc) (m n : nat) :
  all_zero an -> (1 <= m)%nat -> singular (pade_system an m n).
Proof.
  intros Han Hm. unfold pade_system.
  set (B0 := zeros (m + n + 1) m).
  assert (HB0 : forall b, In b B0 -> all_zero b).
  { intros b Hb. apply repeat_spec in Hb. subst b. apply all_zero_repeat. }
  destruct (assign_rows_invariant
              (fun B row => set_prefix (nth row B []) (neg_reversed (slice an 0 row)))
              (seq 1 m) B0) as [Hl1 Hz1]; [|exact HB0|].
  { intros B' r HB'. apply all_zero_set_prefix.
    - now apply nth_all_zero.
    - now apply all_zero_neg_reversed_slice. }
  set (B1 := fold_left _ (seq 1 m) B0) in *.
  destruct (assign_rows_invariant
              (fun B row => neg_reversed (slice an (row - m) row))
              (seq (m + 1) (m + n - m)) B1) as [Hl2 Hz2]; [|exact Hz1|].
  { intros B' r _. now apply all_zero_neg_reversed_slice. }
  set (B2 := fold_left _ (seq (m + 1) (m + n - m)) B1) in *.
  destruct (length_eye (m + n + 1) (n + 1)) as [HlA HA].
  exists (repeat 0 (n + 1) ++ repeat 1 m). split; [|split].
  - unfold hstack. rewrite length_map, length_combine, HlA, Hl2, Hl1.
    unfold B0, zeros. rewrite length_app, !repeat_length. lia.
  - exists 1. split; [|discriminate].
    apply in_or_app. right. destruct m; [lia|now left].
  - intros r Hr. unfold hstack in Hr.
    apply in_map_iff in Hr as [[a b] [<- Hab]]. cbn [fst snd].
    pose proof (in_combine_l _ _ _ _ Hab) as Ha.
    pose proof (in_combine_r _ _ _ _ Hab) as Hb.
    rewrite dot_app by (rewrite repeat_length; now apply HA).
    rewrite dot_zeros, (dot_all_zero b) by now apply Hz2. ring.
Qed.

End ZeroCoefficients.

(** X10.  When every extracted coefficient is zero and the denominator
    has order at least one, [compute_coefficients] raises [LinAlgError]
    and stores nothing. *)
Lemma zero_coefficients_raise (float_of : Expr -> Qc) (self : PadeApproximation.t) :
  (0 <= PadeApproximation.order_m self)%Z ->
  (1 <= PadeApproximation.order_n self)%Z ->
  (forall c, In c (PadeApproximation.taylor_coeffs float_of self) -> c = 0) ->
  PadeApproximation.compute_coefficients float_of self = (self, Raises LinAlgError).
Proof.
  intros Hm Hn Hz. unfold PadeApproximation.compute_coefficients.
  rewrite (SolveFacts.pade_singular _ _ (PadeApproximation.order_m self));
    try assumption; try lia; [reflexivity| |].
  - rewrite PadeFacts.length_taylor_coeffs. lia.
  - apply ZeroCoefficients.zero_coefficients_singular; [exact Hz|lia].
Qed.

(** ** The Pade matching conditions *)

Module Sums.









End Sums.

Module SystemRows.
Import ZeroCoefficients.

Lemma nth_setitem_eq {A : Type} (l : list A) (i : nat) (v d : A) :
  (i < length l)%nat -> nth i (setitem l i v) d = v.
Proof.
  revert i. induction l as [|a l IH]; intros [|i] Hi; simpl in *; try lia.
  - reflexivity.
  - apply IH. lia.
Qed.

Lemma nth_setitem_neq {A : Type} (l : list A) (i j : nat) (v d : A) :
  i <> j -> nth j (setitem l i v) d = nth j l d.
Proof.
  revert i j. induction l as [|a l IH]; intros [|i] [|j] Hij; simpl;
    try reflexivity; try lia.
  apply IH. lia.
Qed.

(** A loop [for row in rows: B[row] = G(row, B[row])] over distinct rows. *)
Lemma assign_rows_nth (G : nat -> list Qc -> list Qc) (rows : list nat) :
  forall B : list (list Qc),
    NoDup rows -> (forall r, In r rows -> (r < length B)%nat) ->
    let B' := fold_left (fun B r => setitem B r (G r (nth r B []))) rows B in
    length B' = length B /\
    forall j, nth j B' [] =
              if in_dec Nat.eq_dec j rows then G j (nth j B []) else nth j B [].
Proof.
  induction rows as [|r rows IH]; intros B Hnd Hlt; cbn [fold_left].
  - split; [reflexivity|]. intros j. now destruct (in_dec Nat.eq_dec j []).
  - inversion Hnd as [|? ? Hr Hnd']; subst.
    destruct (IH (setitem B r (G r (nth r B []))) Hnd') as [Hl Hn].
    { intros r' Hr'. rewrite length_setitem. apply Hlt. now right. }
    split; [now rewrite Hl, length_setitem|].
    intros j. rewrite Hn.
    destruct (in_dec Nat.eq_dec j rows) as [Hj|Hj];
      destruct (in_dec Nat.eq_dec j (r :: rows)) as [Hj'|Hj'].
    + assert (r <> j) by (intros ->; contradiction).
      now rewrite nth_setitem_neq.
    + exfalso. apply Hj'. now right.
    + destruct Hj' as [->|Hj']; [|contradiction].
      apply nth_setitem_eq. apply Hlt. now left.
    + apply nth_setitem_neq. intros ->. apply Hj'. now left.
Qed.

Lemma Qcopp_0 : - 0 = 0.
Proof. ring. Qed.

Lemma length_slice (an : list Qc) (a b : nat) :
  (b <= length an)%nat -> length (slice an a b) = (b - a)%nat.
Proof. intros Hb. unfold slice. rewrite length_firstn, length_skipn. lia. Qed.

Lemma length_neg_reversed (l : list Qc) : length (neg_reversed l) = length l.
Proof. unfold neg_reversed. now rewrite length_map, length_rev. Qed.

Lemma nth_neg_reversed_slice (an : list Qc) (a b i : nat) :
  (b <= length an)%nat -> (i < b - a)%nat ->
  nth i (neg_reversed (slice an a b)) 0 = - nth (b - 1 - i) an 0.
Proof.
  intros Hb Hi. unfold neg_reversed.
  rewrite <- Qcopp_0 at 1. rewrite map_nth. f_equal.
  rewrite rev_nth by (rewrite length_slice; lia).
  rewrite length_slice by lia. unfold slice.
  rewrite nth_firstn.
  destruct (Nat.ltb_spec (b - a - S i) (b - a)) as [_|]; [|lia].
  rewrite nth_skipn. f_equal. lia.
Qed.

(** The rows of [Bkj] after the two loops of [pade]. *)
Lemma pade_system_Bkj (an : list Qc) (m n : nat) :
  length an = (m + n + 1)%nat ->
  let B0 := zeros (m + n + 1) m in
  let B1 :=
    fold_left
      (fun Bkj row =>
         setitem Bkj row
           (set_prefix (nth row Bkj []) (neg_reversed (slice an 0 row))))
      (seq 1 m) B0 in
  let B2 :=
    fold_left
      (fun Bkj row => setitem Bkj row (neg_reversed (slice an (row - m) row)))
      (seq (m + 1) (m + n - m)) B1 in
  length B2 = (m + n + 1)%nat /\
  forall r, (r <= m + n)%nat ->
    length (nth r B2 []) = m /\
    forall i, (i < m)%nat -> nth i (nth r B2 []) 0 = Bkj_entry an r i.
Proof.
  intros Hlen B0 B1 B2.
  assert (HB0 : length B0 = (m + n + 1)%nat) by apply repeat_length.
  destruct (assign_rows_nth
              (fun row old => set_prefix old (neg_reversed (slice an 0 row)))
              (seq 1 m) B0) as [Hl1 Hn1].
  { apply seq_NoDup. }
  { intros r Hr. apply in_seq in Hr. lia. }
  fold B1 in Hl1, Hn1.
  destruct (assign_rows_nth
              (fun row _ => neg_reversed (slice an (row - m) row))
              (seq (m + 1) (m + n - m)) B1) as [Hl2 Hn2].
  { apply seq_NoDup. }
  { intros r Hr. apply in_seq in Hr. lia. }
  fold B2 in Hl2, Hn2.
  split; [lia|]. intros r Hr. rewrite Hn2.
  destruct (in_dec Nat.eq_dec r (seq (m + 1) (m + n - m))) as [H2|H2].
  - apply in_seq in H2. split.
    + rewrite length_neg_reversed, length_slice; lia.
    + intros i Hi. rewrite nth_neg_reversed_slice by lia.
      unfold Bkj_entry. destruct (Nat.ltb_spec i r); [reflexivity|lia].
  - rewrite in_seq in H2. rewrite Hn1.
    destruct (in_dec Nat.eq_dec r (seq 1 m)) as [H1|H1].
    + apply in_seq in H1.
      assert (Hrow : nth r B0 [] = repeat 0 m).
      { unfold B0, zeros. apply nth_repeat_lt. lia. }
      rewrite Hrow. unfold set_prefix.
      assert (Hv : length (neg_reversed (slice an 0 r)) = r)
        by (rewrite length_neg_reversed, length_slice; lia).
      split.
      * rewrite length_app, Hv, length_skipn, repeat_length. lia.
      * intros i Hi. unfold Bkj_entry. destruct (Nat.ltb_spec i r).
        -- rewrite app_nth1 by lia. apply nth_neg_reversed_slice; lia.
        -- rewrite app_nth2 by lia. rewrite nth_skipn. apply nth_repeat.
    + rewrite in_seq in H1. assert (r = 0%nat) by lia. subst r.
      assert (Hrow : nth 0 B0 [] = repeat 0 m).
      { unfold B0, zeros. apply nth_repeat_lt. lia. }
      rewrite Hrow. split; [apply repeat_length|].
      intros i Hi. unfold Bkj_entry. simpl. apply nth_repeat.
Qed.

End SystemRows.

Module PadeLaw.
Import Sums SystemRows SolveFacts SolveValid QuotientFacts ZeroCoefficients.












End PadeLaw.

(** About [0] the series the Pade engine expands is the list of
    coefficients the Taylor engine computes. *)
Lemma pade_series_is_taylor_about_zero (function : Expr -> Expr) (degree : Z) :
  series (function X) 0 (degree + 1) =
  TaylorApproximation.coefficients
    (TaylorApproximation.compute_coefficients
       (TaylorApproximation.init function degree 0)).
Proof. now rewrite TaylorFacts.compute_coefficients_eq. Qed.

(** * Further properties of the two engines *)

(** ** The Taylor engine: repeated calls and closed coefficients *)

Module TaylorMore.
Import TaylorApproximation.

Lemma compute_frame (self : t) :
  degree (compute_coefficients self) = degree self /\
  point (compute_coefficients self) = point self /\
  func_symbolic (compute_coefficients self) = func_symbolic self.
Proof. unfold compute_coefficients. rewrite TaylorFacts.compute_loop. now simpl. Qed.

Lemma combine_seq_map {A : Type} (g : nat -> A) (s k : nat) :
  combine (seq s k) (map g (seq s k)) = map (fun n => (n, g n)) (seq s k).
Proof.
  revert s. induction k as [|k IH]; intros s; [reflexivity|].
  cbn [seq map combine]. now rewrite IH.
Qed.

(** The coefficients of a fresh instance after one call, with their
    indices. *)
Lemma enumerate_computed (function : Expr -> Expr) (d : Z) (p : Qc) :
  enumerate (coefficients (compute_coefficients (init function d p))) =
  map (fun n => (n, truediv (subs (diff (function X) n) (Num p)) (factorial n)))
      (range (d + 1)).
Proof.
  rewrite TaylorFacts.compute_coefficients_eq. simpl.
  unfold enumerate, range. rewrite length_map, length_seq.
  apply combine_seq_map.
Qed.

Lemma has_x_truediv (e : Expr) (d : Qc) : has_x e = false -> has_x (truediv e d) = false.
Proof. intros He. unfold truediv. now apply has_x_mul. Qed.

Lemma coefficients_closed (function : Expr -> Expr) (d : Z) (p : Qc) (c : Expr) :
  In c (coefficients (compute_coefficients (init function d p))) ->
  has_x c = false.
Proof.
  rewrite TaylorFacts.compute_coefficients_eq. simpl. intros Hc.
  apply in_map_iff in Hc as [n [<- _]].
  apply has_x_truediv, has_x_subs.
Qed.

End TaylorMore.

(** X1.  [compute_coefficients] appends to the list it finds: a second
    call on the same instance appends the same coefficients again, so the
    list doubles and [len(coefficients) == degree + 1] no longer holds. *)
Theorem taylor_recompute_appends
    (function : Expr -> Expr) (degree : Z) (point : Qc) :
  let once :=
    TaylorApproximation.compute_coefficients
      (TaylorApproximation.init function degree point) in
  let twice := TaylorApproximation.compute_coefficients once in
  TaylorApproximation.coefficients twice =
    TaylorApproximation.coefficients once ++ TaylorApproximation.coefficients once /\
  length (TaylorApproximation.coefficients twice) = (2 * Z.to_nat (degree + 1))%nat.
Proof.
  intros once twice. subst twice.
  rewrite (TaylorFacts.compute_coefficients_eq once).
  destruct (TaylorMore.compute_frame (TaylorApproximation.init function degree point))
    as (Hd & Hp & Hf).
  fold once in Hd, Hp, Hf. rewrite Hd, Hp, Hf.
  assert (E : TaylorApproximation.coefficients once =
              map (fun n => truediv (subs (diff (function X) n) (Num point)) (factorial n))
                  (range (degree + 1))).
  { unfold once. now rewrite TaylorFacts.compute_coefficients_eq. }
  simpl. split.
  - now rewrite <- E.
  - rewrite length_app, E, length_map. unfold range. rewrite length_seq. lia.
Qed.

(** X2.  Every coefficient a fresh instance computes is a constant: the
    substitution of the numeric point leaves no occurrence of the symbol. *)
Theorem taylor_coefficients_closed
    (function : Expr -> Expr) (degree : Z) (point : Qc) (c : Expr) :
  In c (TaylorApproximation.coefficients
          (TaylorApproximation.compute_coefficients
             (TaylorApproximation.init function degree point))) ->
  has_x c = false.
Proof. apply TaylorMore.coefficients_closed. Qed.

Lemma taylor_coefficients_closed_witness :
  In (Num 1)
     (TaylorApproximation.coefficients
        (TaylorApproximation.compute_coefficients
           (TaylorApproximation.init sin 1 0))) /\
  has_x (Num 1) = false.
Proof.
  assert (H : In (Num 1)
                (TaylorApproximation.coefficients
                   (TaylorApproximation.compute_coefficients
                      (TaylorApproximation.init sin 1 0)))).
  { right. left. qc_equal. }
  split; [exact H|].
  exact (taylor_coefficients_closed sin 1 0 (Num 1) H).
Defined.

(** ** The Taylor engine: the value of the series *)

Module TaylorValue.
Import TaylorApproximation RealFacts.

Lemma denote_sub (a b : Expr) (x : R) :
  denote (sub a b) x = (denote a x - denote b x)%R.
Proof.
  unfold sub. rewrite denote_add, denote_mul. cbn [denote].
  rewrite Q2R_minus_one. ring.
Qed.

Lemma Rsum_list_app (l l' : list R) :
  Rsum_list (l ++ l') = (Rsum_list l + Rsum_list l')%R.
Proof.
  unfold Rsum_list. induction l as [|a l IH]; simpl; [ring|].
  rewrite IH. ring.
Qed.

Lemma Rsum_list_seq (f : nat -> R) (N : nat) :
  Rsum_list (map f (seq 0 (S N))) = sum_f_R0 f N.
Proof.
  induction N as [|N IH]; [unfold Rsum_list; simpl; ring|].
  rewrite seq_S, map_app, Rsum_list_app, IH. cbn [sum_f_R0 Nat.add map].
  unfold Rsum_list. simpl. ring.
Qed.

(** [sum(...)] over the enumerated coefficients, term by term. *)
Lemma denote_series_fold (p : Qc) (x : R) (l : list (nat * Expr)) (acc : Expr) :
  denote
    (fold_left
       (fun acc nc => add acc (mul (snd nc) (pow (sub X (Num p)) (fst nc))))
       l acc) x
  = (denote acc x
     + Rsum_list (map (fun nc => denote (snd nc) x * (x - Q2R p) ^ fst nc) l))%R.
Proof.
  revert acc. induction l as [|[n c] l IH]; intros acc; cbn [fold_left map].
  - unfold Rsum_list. simpl. ring.
  - rewrite IH, denote_add, denote_mul, denote_pow, denote_sub.
    cbn [denote fst snd]. unfold Rsum_list. simpl. ring.
Qed.

(** The series of any instance is the polynomial
    [sum_n c_n (x - point)**n]; automatic evaluation does not change its
    value. *)
Lemma denote_series (self : t) (x : R) :
  denote (series self) x
  = Rsum_list (map (fun nc => (denote (snd nc) x * (x - Q2R (point self)) ^ fst nc)%R)
                   (enumerate (coefficients self))).
Proof.
  unfold series. rewrite denote_series_fold. cbn [denote].
  rewrite Q2R_Qc_0. ring.
Qed.

Lemma denote_computed_series (function : Expr -> Expr) (d : Z) (p : Qc) (x : R) :
  (0 <= d)%Z ->
  denote (series (compute_coefficients (init function d p))) x
  = sum_f_R0
      (fun n => denote (diff (function X) n) (Q2R p) / INR (fact n)
                * (x - Q2R p) ^ n)%R
      (Z.to_nat d).
Proof.
  intros Hd. rewrite denote_series, TaylorMore.enumerate_computed.
  destruct (TaylorMore.compute_frame (init function d p)) as (_ & -> & _).
  cbn [point init]. rewrite map_map. cbn [fst snd]. unfold range.
  replace (Z.to_nat (d + 1)) with (S (Z.to_nat d)) by lia.
  rewrite Rsum_list_seq. apply sum_eq. intros n _.
  rewrite denote_truediv by apply factorial_nonzero.
  now rewrite denote_subs, Q2R_factorial.
Qed.

Lemma sum_f_R0_zero_tail (f : nat -> R) (k d : nat) :
  (k <= d)%nat -> (forall n, (k < n)%nat -> f n = 0%R) ->
  sum_f_R0 f d = sum_f_R0 f k.
Proof.
  intros Hk Hz. induction Hk as [|d Hk IH]; [reflexivity|].
  cbn [sum_f_R0]. rewrite IH, Hz by lia. ring.
Qed.

Lemma Q2R_Qc_div (a b : Qc) : b <> 0%Qc -> Q2R (a / b)%Qc = (Q2R a / Q2R b)%R.
Proof.
  intros Hb. unfold Qcdiv. now rewrite Q2R_Qc_mult, Q2R_Qc_inv.
Qed.

(** The falling factorial over [n!] is the binomial coefficient. *)
Lemma falling_binomial (k n : nat) :
  (n <= k)%nat -> (Q2R (falling k n) / INR (fact n))%R = C k n.
Proof.
  intros Hn. pose proof (falling_fact k n Hn) as E.
  apply (f_equal (fun q : Qc => Q2R q)) in E.
  rewrite Q2R_Qc_mult, !Q2R_Qc_of_nat in E. unfold C.
  pose proof (INR_fact_neq_0 n). pose proof (INR_fact_neq_0 (k - n)).
  rewrite <- E. field. split; assumption.
Qed.

End TaylorValue.

(** X3.  After one call on a fresh instance with [degree >= 0],
    [series()] denotes the Taylor polynomial of the function about
    [point]: [sum_{n=0}^{degree} f^(n)(point)/n! (x - point)**n], where
    [f^(n)] is the [n]-th derivative of the function. *)
Theorem taylor_series_is_taylor_polynomial
    (function : Expr -> Expr) (degree : Z) (point : Qc) :
  (0 <= degree)%Z ->
  let self :=
    TaylorApproximation.compute_coefficients
      (TaylorApproximation.init function degree point) in
  (forall n : nat,
     is_nth_derivative (denote (function X)) n (denote (diff (function X) n))) /\
  forall x : R,
    denote (TaylorApproximation.series self) x
    = sum_f_R0
        (fun n => denote (diff (function X) n) (Q2R point) / INR (fact n)
                  * (x - Q2R point) ^ n)%R
        (Z.to_nat degree).
Proof.
  intros Hd self. split.
  - intros n. apply RealFacts.diff_sound.
  - intros x. now apply TaylorValue.denote_computed_series.
Qed.

Lemma taylor_series_is_taylor_polynomial_witness :
  (0 <= 4)%Z /\
  let self :=
    TaylorApproximation.compute_coefficients (TaylorApproximation.init sin 4 0) in
  (forall n : nat,
     is_nth_derivative (denote (sin X)) n (denote (diff (sin X) n))) /\
  forall x : R,
    denote (TaylorApproximation.series self) x
    = sum_f_R0
        (fun n => denote (diff (sin X) n) (Q2R 0) / INR (fact n)
                  * (x - Q2R 0) ^ n)%R
        (Z.to_nat 4).
Proof.
  split; [lia|]. apply (taylor_series_is_taylor_polynomial sin 4 0). lia.
Defined.

(** X4.  At the expansion point the computed series takes the value of
    the function: the terms of positive order vanish there. *)
Theorem taylor_series_at_point
    (function : Expr -> Expr) (degree : Z) (point : Qc) :
  (0 <= degree)%Z ->
  denote
    (TaylorApproximation.series
       (TaylorApproximation.compute_coefficients
          (TaylorApproximation.init function degree point)))
    (Q2R point)
  = denote (function X) (Q2R point).
Proof.
  intros Hd. rewrite TaylorValue.denote_computed_series by exact Hd.
  rewrite (TaylorValue.sum_f_R0_zero_tail _ 0 (Z.to_nat degree)).
  - cbn [sum_f_R0 diff Nat.iter fact INR Rpow_def.pow]. unfold diff. simpl. field.
  - lia.
  - intros n Hn. destruct n as [|n]; [lia|].
    rewrite Rminus_diag. cbn [Rpow_def.pow]. ring.
Qed.

Lemma taylor_series_at_point_witness :
  (0 <= 4)%Z /\
  denote
    (TaylorApproximation.series
       (TaylorApproximation.compute_coefficients
          (TaylorApproximation.init sin 4 (Qc_of_Z 2))))
    (Q2R (Qc_of_Z 2))
  = denote (sin X) (Q2R (Qc_of_Z 2)).
Proof.
  split; [lia|]. apply (taylor_series_at_point sin 4 (Qc_of_Z 2)). lia.
Defined.

(** X5.  For [f(x) = x**k] and [degree >= k] the computed series
    reproduces the function at every [x], about any expansion point: the
    coefficients are the binomial ones, [C(k, n) point**(k - n)]. *)
Theorem taylor_series_exact_on_powers (k : nat) (degree : Z) (point : Qc) (x : R) :
  (Z.of_nat k <= degree)%Z ->
  denote
    (TaylorApproximation.series
       (TaylorApproximation.compute_coefficients
          (TaylorApproximation.init (fun x => pow x k) degree point))) x
  = (x ^ k)%R.
Proof.
  intros Hk.
  rewrite TaylorValue.denote_series, TaylorMore.enumerate_computed.
  destruct (TaylorMore.compute_frame
              (TaylorApproximation.init (fun x => pow x k) degree point))
    as (_ & -> & _).
  cbn [TaylorApproximation.point TaylorApproximation.init].
  rewrite map_map. cbn [fst snd]. unfold range.
  replace (Z.to_nat (degree + 1)) with (S (Z.to_nat degree)) by lia.
  rewrite TaylorValue.Rsum_list_seq.
  rewrite (TaylorValue.sum_f_R0_zero_tail _ k) by
    first [ lia
          | intros n Hn; rewrite monomial_taylor_coefficient; cbn [denote];
            rewrite falling_past by lia;
            rewrite TaylorValue.Q2R_Qc_div by apply factorial_nonzero;
            rewrite RealFacts.Q2R_Qc_mult, RealFacts.Q2R_Qc_0;
            unfold Rdiv; ring ].
  replace (x ^ k)%R with ((x - Q2R point + Q2R point) ^ k)%R by (f_equal; ring).
  rewrite binomial. apply sum_eq. intros n Hn.
  rewrite monomial_taylor_coefficient. cbn [denote].
  rewrite TaylorValue.Q2R_Qc_div by apply factorial_nonzero.
  rewrite RealFacts.Q2R_Qc_mult, RealFacts.Q2R_Qc_power, RealFacts.Q2R_factorial.
  rewrite <- (TaylorValue.falling_binomial k n Hn).
  unfold Rdiv. ring.
Qed.

Lemma taylor_series_exact_on_powers_witness :
  (Z.of_nat 3 <= 5)%Z /\
  denote
    (TaylorApproximation.series
       (TaylorApproximation.compute_coefficients
          (TaylorApproximation.init (fun x => pow x 3) 5 (Qc_of_Z 2)))) 7%R
  = (7 ^ 3)%R.
Proof.
  split; [lia|]. apply (taylor_series_exact_on_powers 3 5 (Qc_of_Z 2) 7%R). lia.
Defined.

(** ** The Taylor engine: what [evaluate_series] returns *)

Module EvaluateFacts.
Import TaylorApproximation.

Lemma has_x_add_or (a b : Expr) : has_x (add a b) = has_x a || has_x b.
Proof.
  unfold add.
  destruct a as [p| | | | | | |]; destruct b as [q| | | | | | |];
    try reflexivity;
    try (destruct (is_zero p); reflexivity);
    try (destruct (is_zero q); cbn [has_x]; now rewrite ?orb_false_r).
Qed.

Lemma has_x_scale_nonzero (c : Qc) (e : Expr) :
  is_zero c = false -> has_x (scale c e) = has_x e.
Proof.
  intros Hc. unfold scale. rewrite Hc.
  destruct (is_one c); [reflexivity|].
  destruct e as [q| |a b|a b|a n|a|a|a]; try reflexivity.
  destruct a as [d| | | | | | |]; try reflexivity.
  now destruct (is_one (c * d)).
Qed.

Lemma power_term_pow (p : Qc) (n : nat) : power_term (pow (sub X (Num p)) (S n)).
Proof.
  unfold sub. cbn [mul add].
  destruct (is_zero (- (1) * p)); destruct n as [|n]; now split.
Qed.

(** A term of the series contains the symbol unless its order is [0] or
    its coefficient is the number [0]. *)
Lemma has_x_series_term (c : Expr) (p : Qc) (n : nat) :
  has_x c = false ->
  has_x (mul c (pow (sub X (Num p)) n))
  = (0 <? n)%nat && negb (is_num_zero c).
Proof.
  intros Hc. destruct n as [|n].
  - cbn [pow Nat.ltb Nat.leb andb]. now apply has_x_mul.
  - destruct (power_term_pow p n) as [Ht Hshape].
    destruct (pow (sub X (Num p)) (S n)) as [q| |a b|a b|a k|a|a|a];
      try contradiction;
      (destruct c as [q| | | | | | |];
       [ cbn [mul is_num_zero];
         destruct (is_zero q) eqn:Hz;
         [ unfold scale; rewrite Hz; reflexivity
         | rewrite has_x_scale_nonzero by exact Hz; exact Ht ]
       | cbn [mul has_x is_num_zero] in *; try rewrite Ht;
         rewrite ?orb_true_r; reflexivity .. ]).
Qed.

Lemma has_x_series_fold (p : Qc) (l : list (nat * Expr)) (acc : Expr) :
  (forall nc, In nc l -> has_x (snd nc) = false) ->
  has_x
    (fold_left
       (fun acc nc => add acc (mul (snd nc) (pow (sub X (Num p)) (fst nc))))
       l acc)
  = has_x acc
    || existsb (fun nc => (0 <? fst nc)%nat && negb (is_num_zero (snd nc))) l.
Proof.
  revert acc. induction l as [|[n c] l IH]; intros acc Hl; cbn [fold_left existsb].
  - now rewrite orb_false_r.
  - rewrite IH by (intros nc Hnc; apply Hl; now right).
    rewrite has_x_add_or, has_x_series_term by (apply (Hl (n, c)); now left).
    cbn [fst snd]. now rewrite orb_assoc.
Qed.





End EvaluateFacts.

(** X6.  After one call on a fresh instance, [evaluate_series] returns a
    value of the shape of its argument exactly when some coefficient of
    index at least [1] is not the number [0]; when all of them are, it
    returns a scalar, whatever the argument. *)
Theorem evaluate_series_shape
    (function : Expr -> Expr) (degree : Z) (point : Qc) (x_values : ndarray Expr) :
  let self :=
    TaylorApproximation.compute_coefficients
      (TaylorApproximation.init function degree point) in
  shape (TaylorApproximation.evaluate_series self x_values)
  = if existsb (fun nc => (0 <? fst nc)%nat && negb (is_num_zero (snd nc)))
               (enumerate (TaylorApproximation.coefficients self))
    then shape x_values
    else Shape0.
Proof.
  intros self. unfold TaylorApproximation.evaluate_series.
  rewrite lambdify_shape. unfold TaylorApproximation.series.
  rewrite EvaluateFacts.has_x_series_fold; [reflexivity|].
  intros [n c] Hnc. apply in_combine_r in Hnc.
  exact (TaylorMore.coefficients_closed function degree point c Hnc).
Qed.


(** ** The Pade engine: success, degrees, repeated calls *)

Module PadeMore.
Import SolveFacts SolveValid SystemRows PadeLaw.

Lemma length_pade_system (an : list Qc) (m n : nat) :
  length an = (m + n + 1)%nat -> length (pade_system an m n) = (m + n + 1)%nat.
Proof.
  intros Hlen. unfold pade_system.
  destruct (pade_system_Bkj an m n Hlen) as [HlB _]. cbv zeta in HlB.
  unfold hstack. rewrite length_map, length_combine, HlB.
  destruct (ZeroCoefficients.length_eye (m + n + 1) (n + 1)) as [-> _]. lia.
Qed.

(** [pade] on non-negative orders and as many coefficients as they ask
    for: the outcome is that of the solver. *)
Lemma pade_valid_orders (an : list Qc) (m n : Z) :
  (0 <= m)%Z -> (0 <= n)%Z ->
  Z.of_nat (length an) = (n + m + 1)%Z ->
  pade an m =
  match solve (pade_system an (Z.to_nat m) (Z.to_nat n)) an with
  | Raises e => Raises e
  | Returns pq =>
      Returns (mk_poly1d (rev (firstn (Z.to_nat n + 1) pq)),
               mk_poly1d (rev (1 :: skipn (Z.to_nat n + 1) pq)))
  end.
Proof.
  intros Hm Hn Hlen. unfold pade. rewrite Hlen.
  replace (n + m + 1 - 1 - m)%Z with n by lia.
  destruct (Z.ltb_spec n 0) as [|_]; [lia|].
  destruct (Z.gtb_spec (m + n) (n + m + 1 - 1)) as [|_]; [lia|].
  destruct (Z.ltb_spec m 0) as [|_]; [lia|].
  now rewrite firstn_all2 by lia.
Qed.

(** A successful [pade] had non-negative orders and at least one
    coefficient; the solver returned a vector of the size of the system. *)
Lemma pade_returns_inv (an : list Qc) (m : Z) (P Q : poly1d) :
  pade an m = Returns (P, Q) ->
  exists (n : nat) (pq : list Qc),
    (0 <= m)%Z /\
    length an = (Z.to_nat m + n + 1)%nat /\
    solve (pade_system an (Z.to_nat m) n) an = Returns pq /\
    length pq = (Z.to_nat m + n + 1)%nat /\
    P = mk_poly1d (rev (firstn (n + 1) pq)) /\
    Q = mk_poly1d (rev (1 :: skipn (n + 1) pq)).
Proof.
  unfold pade.
  destruct (Z.ltb_spec (Z.of_nat (length an) - 1 - m) 0) as [|Hn]; [discriminate|].
  destruct (Z.gtb_spec (m + (Z.of_nat (length an) - 1 - m))
                       (Z.of_nat (length an) - 1)) as [|_]; [discriminate|].
  destruct (Z.ltb_spec m 0) as [|Hm]; [discriminate|].
  rewrite firstn_all2 by lia.
  remember (Z.to_nat (Z.of_nat (length an) - 1 - m)) as n eqn:En.
  assert (Hlen : length an = (Z.to_nat m + n + 1)%nat) by (subst n; lia).
  destruct (solve (pade_system an (Z.to_nat m) n) an) as [pq|e] eqn:Hs; [|discriminate].
  intros H. injection H as <- <-. exists n, pq.
  destruct (solve_returns _ _ _
              (eq_sym (eq_trans (length_pade_system an _ n Hlen) (eq_sym Hlen))) Hs)
    as [Hx _].
  rewrite (length_pade_system an _ n Hlen) in Hx.
  repeat split; try assumption; reflexivity.
Qed.

Lemma solve_only_linalg_error (a : list (list Qc)) (b : list Qc) (e : exception) :
  solve a b = Raises e -> e = LinAlgError.
Proof. unfold solve. destruct (gauss _ _); intros H; now inversion H. Qed.

Lemma length_mk_poly1d (c : list Qc) :
  (1 <= length (mk_poly1d c) <= Nat.max 1 (length c))%nat.
Proof.
  unfold mk_poly1d.
  assert (H : (length (trim_zeros_front c) <= length c)%nat).
  { induction c as [|a c IH]; [reflexivity|]. cbn [trim_zeros_front].
    destruct (is_zero a); cbn [length] in *; lia. }
  destruct (trim_zeros_front c) as [|a t]; cbn [length] in *; lia.
Qed.

Lemma leading_mk_poly1d (c : list Qc) :
  leading_coefficient (mk_poly1d c) <> 0 \/ mk_poly1d c = [0].
Proof.
  unfold mk_poly1d. induction c as [|a c IH]; [now right|].
  cbn [trim_zeros_front]. destruct (is_zero a) eqn:Hz; [exact IH|].
  left. now apply is_zero_false.
Qed.

End PadeMore.

(** X11.  The coefficients the Pade engine extracts are the float values
    of the coefficients the Taylor engine computes about [0] with
    [degree = order_m + order_n], whatever the point stored in the Pade
    instance. *)
Theorem pade_extracts_taylor_coefficients
    (float_of : Expr -> Qc) (function : Expr -> Expr) (order_m order_n : Z) (point : Qc) :
  PadeApproximation.taylor_coeffs float_of
    (PadeApproximation.init function order_m order_n point) =
  map float_of
    (TaylorApproximation.coefficients
       (TaylorApproximation.compute_coefficients
          (TaylorApproximation.init function (order_m + order_n) 0))).
Proof.
  rewrite taylor_coeffs_about_zero.
  now rewrite <- pade_series_is_taylor_about_zero.
Qed.

(** X13.  A successful [compute_coefficients] had non-negative orders,
    and the polynomials it stores respect them: the numerator has at most
    [order_m + 1] coefficients, the denominator at most [order_n + 1],
    neither is empty, the leading coefficient of the denominator is not
    zero, and that of the numerator is zero only for the polynomial
    [0]. *)
Theorem pade_degrees_bounded
    (float_of : Expr -> Qc) (self self' : PadeApproximation.t) :
  PadeApproximation.compute_coefficients float_of self = (self', Returns tt) ->
  (0 <= PadeApproximation.order_m self)%Z /\
  (0 <= PadeApproximation.order_n self)%Z /\
  exists P Q : poly1d,
    PadeApproximation.numerator self' = Some P /\
    PadeApproximation.denominator self' = Some Q /\
    (1 <= length P <= Z.to_nat (PadeApproximation.order_m self) + 1)%nat /\
    (1 <= length Q <= Z.to_nat (PadeApproximation.order_n self) + 1)%nat /\
    leading_coefficient Q <> 0 /\
    (leading_coefficient P <> 0 \/ P = [0]).
Proof.
  unfold PadeApproximation.compute_coefficients.
  destruct (pade _ _) as [[P Q]|e] eqn:E; intros H; [|discriminate].
  injection H as <-.
  pose proof (pade_denominator_constant_term _ _ _ _ E) as Hct.
  destruct (PadeMore.pade_returns_inv _ _ _ _ E)
    as (n & pq & Hn & Hlen & _ & Hpq & -> & ->).
  rewrite PadeFacts.length_taylor_coeffs in Hlen.
  assert (Hm : (0 <= PadeApproximation.order_m self)%Z) by lia.
  split; [exact Hm|]. split; [exact Hn|].
  eexists. eexists. split; [reflexivity|]. split; [reflexivity|].
  pose proof (PadeMore.length_mk_poly1d (rev (firstn (n + 1) pq))) as HP.
  pose proof (PadeMore.length_mk_poly1d (rev (1 :: skipn (n + 1) pq))) as HQ.
  rewrite length_rev in HP, HQ. rewrite length_firstn in HP.
  cbn [length] in HQ. rewrite length_skipn in HQ. cbn [fst snd].
  split; [lia|]. split; [lia|]. split.
  - destruct (PadeMore.leading_mk_poly1d (rev (1 :: skipn (n + 1) pq))) as [H|H];
      [exact H|].
    rewrite H in Hct. discriminate Hct.
  - apply PadeMore.leading_mk_poly1d.
Qed.

Lemma pade_degrees_bounded_witness :
  let self := PadeApproximation.init sin 3 2 0 in
  let self' := fst (PadeApproximation.compute_coefficients exact_float self) in
  PadeApproximation.compute_coefficients exact_float self = (self', Returns tt) /\
  (0 <= PadeApproximation.order_m self)%Z /\
  (0 <= PadeApproximation.order_n self)%Z /\
  exists P Q : poly1d,
    PadeApproximation.numerator self' = Some P /\
    PadeApproximation.denominator self' = Some Q /\
    (1 <= length P <= Z.to_nat (PadeApproximation.order_m self) + 1)%nat /\
    (1 <= length Q <= Z.to_nat (PadeApproximation.order_n self) + 1)%nat /\
    leading_coefficient Q <> 0 /\
    (leading_coefficient P <> 0 \/ P = [0]).
Proof.
  intros self self'.
  assert (H : PadeApproximation.compute_coefficients exact_float self = (self', Returns tt))
    by (vm_compute; reflexivity).
  split; [exact H|].
  exact (pade_degrees_bounded exact_float self self' H).
Defined.

(** X14.  Unlike the Taylor engine, the Pade engine can be run again: a
    second [compute_coefficients] after a successful one succeeds and
    leaves the same instance. *)
Theorem pade_recompute_idempotent
    (float_of : Expr -> Qc) (self self' : PadeApproximation.t) :
  PadeApproximation.compute_coefficients float_of self = (self', Returns tt) ->
  PadeApproximation.compute_coefficients float_of self' = (self', Returns tt).
Proof.
  unfold PadeApproximation.compute_coefficients.
  destruct (pade (PadeApproximation.taylor_coeffs float_of self) _)
    as [pq|e] eqn:E; intros H; [|discriminate].
  injection H as <-.
  rewrite (PadeFacts.taylor_coeffs_ext float_of
             (PadeApproximation.store self pq) self) by reflexivity.
  cbn [PadeApproximation.order_n PadeApproximation.store]. rewrite E.
  reflexivity.
Qed.

Lemma pade_recompute_idempotent_witness :
  let self := PadeApproximation.init sin 3 2 0 in
  let self' := fst (PadeApproximation.compute_coefficients exact_float self) in
  PadeApproximation.compute_coefficients exact_float self = (self', Returns tt) /\
  PadeApproximation.compute_coefficients exact_float self' = (self', Returns tt).
Proof.
  intros self self'.
  assert (H : PadeApproximation.compute_coefficients exact_float self = (self', Returns tt))
    by (vm_compute; reflexivity).
  split; [exact H|].
  exact (pade_recompute_idempotent exact_float self self' H).
Defined.

(** ** The Pade engine: what [evaluate] returns *)

Module PolyFacts.







End PolyFacts.





(** ** An instance of the fact on all-zero coefficients *)

Lemma zero_coefficients_raise_witness :
  let self := PadeApproximation.init (fun x => mul (Num 0) x) 1 1 0 in
  (0 <= PadeApproximation.order_m self)%Z /\
  (1 <= PadeApproximation.order_n self)%Z /\
  (forall c, In c (PadeApproximation.taylor_coeffs exact_float self) -> c = 0) /\
  PadeApproximation.compute_coefficients exact_float self = (self, Raises LinAlgError).
Proof.
  intros self.
  assert (Hm : (0 <= PadeApproximation.order_m self)%Z) by (simpl; lia).
  assert (Hn : (1 <= PadeApproximation.order_n self)%Z) by (simpl; lia).
  assert (Hz : forall c, In c (PadeApproximation.taylor_coeffs exact_float self) -> c = 0).
  { intros c Hc. vm_compute in Hc.
    repeat (destruct Hc as [<-|Hc]; [qc_equal|]). contradiction. }
  split; [exact Hm|]. split; [exact Hn|]. split; [exact Hz|].
  exact (zero_coefficients_raise exact_float self Hm Hn Hz).
Defined.
